(** * Duplicate detection over query results: [app.py]

    A shallow embedding of [compute_duplicates] and
    [build_query_from_input] from [src/app.py], together with the part
    of pandas that [compute_duplicates] calls ([DataFrame.empty],
    [duplicated], [loc], [sort_values], [groupby], [cumcount],
    [nunique], column assignment and column selection).

    Modelling choices.
    - A cell holds what SQLite hands to pandas: NULL, an INTEGER or a
      TEXT ([Scalar]).  REAL and BLOB cells are left out.  pandas shows
      a NULL as [None] or [NaN]; both are [SNull] here.
    - A frame is its ordered column labels and its rows, each row with
      its index label; a row is a finite map from column label to cell.
      Column labels are distinct; a row has a cell for every column.
    - Each column holds cells of one kind (next to NULLs), which is
      what pandas needs to order a column.  [scalar_compare] places
      integers before texts only to be total.
    - What numpy and pandas leave open is a parameter ([Pandas]): the
      order in which the unstable single-key sort leaves equal keys,
      and whether a one-column [groupby] yields a bare value (pandas 1)
      or a 1-tuple (pandas 2) as the group key. *)

From Stdlib Require Import ZArith NArith Ascii String.
From stdpp Require Import base tactics option list strings gmap sorting.

Local Open Scope string_scope.
Local Open Scope list_scope.
Local Open Scope nat_scope.

(** ** Cells *)

Inductive Scalar :=
  | SNull
  | SInt (z : Z)
  | SText (s : string).

#[global] Instance Scalar_eq_dec : EqDecision Scalar.
Proof. solve_decision. Defined.

(** [pandas.isna] on one cell. *)
Definition isna (v : Scalar) : bool :=
  match v with SNull => true | _ => false end.

(** ** Orders

    A three-way comparison that is a strict total order. *)

Class TotalCompare {A : Type} (cmp : A → A → comparison) := {
  compare_eq x y : cmp x y = Eq ↔ x = y;
  compare_flip x y : cmp y x = CompOpp (cmp x y);
  compare_lt_trans x y z : cmp x y = Lt → cmp y z = Lt → cmp x z = Lt
}.

(** Lexicographic comparison, the order of Python tuples and strings. *)
Fixpoint lex_compare {A} (cmp : A → A → comparison) (l1 l2 : list A) : comparison :=
  match l1, l2 with
  | [], [] => Eq
  | [], _ :: _ => Lt
  | _ :: _, [] => Gt
  | x :: l1', y :: l2' =>
      match cmp x y with
      | Eq => lex_compare cmp l1' l2'
      | c => c
      end
  end.

(** The code points of a text.  Python orders [str] by code point; on
    UTF-8 bytes that is the byte order. *)
Fixpoint text_codes (s : string) : list N :=
  match s with
  | EmptyString => []
  | String a s' => N_of_ascii a :: text_codes s'
  end.

Definition text_compare (s1 s2 : string) : comparison :=
  lex_compare N.compare (text_codes s1) (text_codes s2).

(** Ascending order of the cells of a column, NULLs last
    ([na_position="last"]). *)
Definition scalar_compare (a b : Scalar) : comparison :=
  match a, b with
  | SNull, SNull => Eq
  | SNull, _ => Gt
  | _, SNull => Lt
  | SInt x, SInt y => Z.compare x y
  | SInt _, SText _ => Lt
  | SText _, SInt _ => Gt
  | SText x, SText y => text_compare x y
  end.

(** Order of key tuples: column by column. *)
Definition key_compare : list Scalar → list Scalar → comparison :=
  lex_compare scalar_compare.

Definition cmp_le {A} (cmp : A → A → comparison) (x y : A) : Prop := cmp x y ≠ Gt.
Definition cmp_lt {A} (cmp : A → A → comparison) (x y : A) : Prop := cmp x y = Lt.

Definition leb {A} (cmp : A → A → comparison) (x y : A) : bool :=
  match cmp x y with Gt => false | _ => true end.

Definition scalar_le : relation Scalar := cmp_le scalar_compare.
Definition key_le : relation (list Scalar) := cmp_le key_compare.
Definition key_lt : relation (list Scalar) := cmp_lt key_compare.

(** ** Python exceptions and results *)

Inductive Exception :=
  | KeyError (missing : list string)
  | ValueError (message : string).

Inductive Result (A : Type) :=
  | Ok (a : A)
  | Raise (e : Exception).
Arguments Ok {A} a.
Arguments Raise {A} e.

Definition bind {A B} (r : Result A) (k : A → Result B) : Result B :=
  match r with
  | Ok a => k a
  | Raise e => Raise e
  end.

Definition result_map {A B} (f : A → B) (r : Result A) : Result B :=
  bind r (λ a, Ok (f a)).

Notation "x ←! r ; k" := (bind r (λ x, k))
  (at level 20, r at level 100, k at level 200, only parsing).

(** ** [build_query_from_input]

    A Python [str] is a sequence of code points. *)

Definition pystr := list N.

Definition lit (s : string) : pystr := text_codes s.

(** [str.isspace] on one code point: the white space of CPython's
    [_PyUnicode_IsWhitespace], which is what [str.strip()] removes. *)
Definition isspace (c : N) : bool :=
  ((9 <=? c) && (c <=? 13) || (28 <=? c) && (c <=? 32)
   || (c =? 133) || (c =? 160) || (c =? 5760)
   || (8192 <=? c) && (c <=? 8202)
   || (c =? 8232) || (c =? 8233) || (c =? 8239) || (c =? 8287)
   || (c =? 12288))%N.

Fixpoint lstrip (s : pystr) : pystr :=
  match s with
  | [] => []
  | c :: s' => if isspace c then lstrip s' else s
  end.

Definition rstrip (s : pystr) : pystr := reverse (lstrip (reverse s)).

Definition strip (s : pystr) : pystr := rstrip (lstrip s).

(** [str.lower] on the letters A to Z.  Python also lowers letters
    outside ASCII; none of them lowers to a letter of the two prefixes
    tested below followed by the next letter of the prefix, and
    [lowered] is used for those two tests only. *)
Definition lower_char (c : N) : N :=
  if ((65 <=? c) && (c <=? 90))%N then (c + 32)%N else c.

Definition lower (s : pystr) : pystr := lower_char <$> s.

Fixpoint startswith (s prefix : pystr) : bool :=
  match prefix, s with
  | [], _ => true
  | _ :: _, [] => false
  | p :: prefix', c :: s' => (c =? p)%N && startswith s' prefix'
  end.

Definition build_query_from_input (source : pystr) : Result pystr :=
  let cleaned := strip source in
  if bool_decide (cleaned = []) then
    Raise (ValueError "Informe uma tabela ou uma consulta SQL válida.")
  else
    let lowered := lower cleaned in
    if startswith lowered (lit "select") || startswith lowered (lit "with") then
      Ok cleaned
    else
      Ok (lit "SELECT * FROM " ++ cleaned).

(** ** Frames *)

Abbreviation Row := (gmap string Scalar).

(** The cell of row [r] in column [c].  A row of a frame has a cell for
    each of its columns, so the default is not reached on a frame that
    pandas can hold. *)
Definition get (r : Row) (c : string) : Scalar := default SNull (r !! c).

Record DataFrame := {
  columns : list string;
  rows : list (nat * Row)         (* index label, cells *)
}.

(** [DataFrame.empty]: some axis has length 0. *)
Definition is_empty (df : DataFrame) : bool :=
  bool_decide (columns df = [] ∨ rows df = []).

(** The frame [pd.read_sql_query] builds: a [RangeIndex] over the rows. *)
Definition read_frame (cols : list string) (rs : list Row) : DataFrame :=
  {| columns := cols; rows := zip (seq 0 (length rs)) rs |}.

(** Positional selection [take]. *)
Definition take_rows {A} (indexer : list nat) (l : list A) : list A :=
  omap (λ i, l !! i) indexer.

(** What numpy and pandas leave open. *)
Class Pandas := {
  (** [ndarray.argsort(kind="quicksort")] on cells without NULL: some
      permutation that sorts; equal cells come in no promised order. *)
  argsort : list Scalar → list nat;
  (** Whether iterating a [groupby] over a one-element list of columns
      yields the bare cell as group key rather than a 1-tuple. *)
  scalar_group_key : bool
}.

(** What is known of [argsort]: it returns a permutation of the
    positions, and the cells read in that order ascend. *)
Class PandasLaws (P : Pandas) : Prop := {
  argsort_perm l : argsort l ≡ₚ seq 0 (length l);
  argsort_sorted l : Sorted scalar_le (take_rows (argsort l) l)
}.

(** The projection of a row onto the key columns. *)
Definition project (keys : list string) (r : Row) : list Scalar :=
  get r <$> keys.

Definition row_key (keys : list string) (ir : nat * Row) : list Scalar :=
  project keys ir.2.

Definition count_key (k : list Scalar) (ks : list (list Scalar)) : nat :=
  length (filter (λ k', k' = k) ks).

(** [DataFrame.duplicated(subset, keep=False)]: a row is marked when
    its projection occurs more than once; NULL equals NULL here.  A
    label of [subset] that is no column raises [KeyError]; an empty
    [subset] fails while unpacking the per-column labels. *)
Definition duplicated (df : DataFrame) (subset : list string) : Result (list bool) :=
  if is_empty df then Ok []
  else
    let diff := remove_dups (filter (λ c, c ∉ columns df) subset) in
    if bool_decide (diff = []) then
      if bool_decide (subset = []) then
        Raise (ValueError "not enough values to unpack (expected 2, got 0)")
      else
        let ks := row_key subset <$> rows df in
        Ok ((λ k, bool_decide (2 ≤ count_key k ks)) <$> ks)
    else Raise (KeyError diff).

(** Boolean indexing [a[mask]]. *)
Definition select {A} (l : list A) (mask : list bool) : list A :=
  fst <$> filter (λ xb, xb.2 = true) (zip l mask).

(** [df.loc[mask]] *)
Definition loc (df : DataFrame) (mask : list bool) : DataFrame :=
  {| columns := columns df; rows := select (rows df) mask |}.

(** A stable sort on a key tuple: the sorts behind [lexsort_indexer]
    (counting sort, merge sort) keep equal keys in their order. *)
Fixpoint insert_sorted {A} (key : A → list Scalar) (x : A) (l : list A) : list A :=
  match l with
  | [] => [x]
  | y :: l' =>
      if leb key_compare (key x) (key y) then x :: l
      else y :: insert_sorted key x l'
  end.

Definition stable_sort {A} (key : A → list Scalar) (l : list A) : list A :=
  foldr (insert_sorted key) [] l.

(** [pandas.core.sorting.lexsort_indexer], ascending, NULLs last: the
    positions of the key tuples in sorted order. *)
Definition lexsort_indexer (ks : list (list Scalar)) : list nat :=
  fst <$> stable_sort snd (zip (seq 0 (length ks)) ks).

(** [pandas.core.sorting.nargsort], ascending, [na_position="last"]:
    the cells that are not NULL are sorted by [argsort], the positions
    of the NULLs follow in their order. *)
Definition nargsort `{Pandas} (items : list Scalar) : list nat :=
  let idx := seq 0 (length items) in
  let mask := isna <$> items in
  let non_nans := select items (negb <$> mask) in
  let non_nan_idx := select idx (negb <$> mask) in
  let nan_idx := select idx mask in
  take_rows (argsort non_nans) non_nan_idx ++ nan_idx.

(** [DataFrame.sort_values(by)]: one column goes through [nargsort],
    several through [lexsort_indexer]. *)
Definition sort_values `{Pandas} (by_ : list string) (df : DataFrame) : DataFrame :=
  match by_ with
  | [] => df
  | [k] =>
      {| columns := columns df;
         rows := take_rows (nargsort ((λ ir, get ir.2 k) <$> rows df)) (rows df) |}
  | _ =>
      {| columns := columns df;
         rows := take_rows (lexsort_indexer (row_key by_ <$> rows df))
                           (rows df) |}
  end.

(** [groupby] drops the rows whose key has a NULL ([dropna=True]). *)
Definition has_null (k : list Scalar) : bool := existsb isna k.

(** [df.groupby(keys).cumcount()]: the number of earlier rows of the
    same group; NaN for a row that [groupby] dropped (pandas 1.5 and
    later; the whole column is then a float column, and 1.0 stands for
    the ordinal 1). *)
Definition cumcount (keys : list string) (df : DataFrame) : list Scalar :=
  let ks := row_key keys <$> rows df in
  imap (λ p k, if has_null k then SNull
               else SInt (Z.of_nat (count_key k (take p ks)))) ks.

(** [series + 1]; NaN stays NaN. *)
Definition add_one (v : Scalar) : Scalar :=
  match v with
  | SInt z => SInt (z + 1)
  | _ => v
  end.

(** [df[c] = values]: an existing column is overwritten, a new one is
    appended. *)
Definition setitem (df : DataFrame) (c : string) (values : list Scalar) : DataFrame :=
  {| columns := if bool_decide (c ∈ columns df) then columns df else columns df ++ [c];
     rows := zip_with (λ ir v, (ir.1, <[c := v]> ir.2)) (rows df) values |}.

(** [df[cols]] for a list [cols] that keeps every column: the cells
    stay, the column order changes. *)
Definition getitem (df : DataFrame) (cols : list string) : DataFrame :=
  {| columns := cols; rows := rows df |}.

(** The group keys in ascending order ([sort=True]), each once. *)
Fixpoint insert_uniq (k : list Scalar) (l : list (list Scalar)) : list (list Scalar) :=
  match l with
  | [] => [k]
  | y :: l' =>
      match key_compare k y with
      | Lt => k :: l
      | Eq => l
      | Gt => y :: insert_uniq k l'
      end
  end.

Definition sorted_group_keys (ks : list (list Scalar)) : list (list Scalar) :=
  foldr insert_uniq [] (filter (λ k, has_null k = false) ks).

(** A group key as the iteration hands it out. *)
Inductive GroupKey :=
  | KScalar (v : Scalar)
  | KTuple (vs : list Scalar).

#[global] Instance GroupKey_eq_dec : EqDecision GroupKey.
Proof. solve_decision. Defined.

Definition yield_key `{Pandas} (k : list Scalar) : GroupKey :=
  match k with
  | [v] => if scalar_group_key then KScalar v else KTuple k
  | _ => KTuple k
  end.

(** [for group_keys, group in df.groupby(keys)] *)
Definition groupby `{Pandas} (keys : list string) (df : DataFrame)
  : list (GroupKey * list (nat * Row)) :=
  (λ k, (yield_key k, filter (λ ir, row_key keys ir = k) (rows df)))
    <$> sorted_group_keys (row_key keys <$> rows df).

(** [Series.nunique()]: the number of distinct cells, NULLs left out
    ([dropna=True]). *)
Definition nunique (values : list Scalar) : nat :=
  length (remove_dups (filter (λ v, isna v = false) values)).

(** ** [compute_duplicates] *)

Record DifferenceRecord := {
  key : GroupKey;
  duplicate_count : nat;
  difference_columns : list string
}.

#[global] Instance DifferenceRecord_eq_dec : EqDecision DifferenceRecord.
Proof. solve_decision. Defined.

(** [if not isinstance(group_keys, tuple): group_keys = (group_keys,)] *)
Definition as_tuple (group_keys : GroupKey) : GroupKey :=
  match group_keys with
  | KTuple _ => group_keys
  | KScalar v => KTuple [v]
  end.

Definition compute_duplicates `{Pandas} (df : DataFrame) (keys : list string)
  : Result (DataFrame * list DifferenceRecord) :=
  if is_empty df then Ok (df, [])
  else
    duplicates_mask ←! duplicated df keys;
    let duplicates_df := loc df duplicates_mask in
    if is_empty duplicates_df then Ok (duplicates_df, [])
    else
      let duplicates_df := sort_values keys duplicates_df in
      let duplicates_df :=
        setitem duplicates_df "ordem" (add_one <$> cumcount keys duplicates_df) in
      let columns_ := "ordem" :: filter (λ col, col ≠ "ordem") (columns duplicates_df) in
      let duplicates_df := getitem duplicates_df columns_ in
      let non_key_columns := filter (λ col, col ∉ keys) (columns df) in
      let difference_summary :=
        (λ '(group_keys, group),
           {| key := as_tuple group_keys;
              duplicate_count := length group;
              difference_columns :=
                filter (λ col, 1 < nunique ((λ ir, get ir.2 col) <$> group))
                       non_key_columns |})
          <$> groupby keys duplicates_df in
      Ok (duplicates_df, difference_summary).

(** ** The request handler [index]

    The handler reads the method and the form of the request, flashes
    messages and renders the template [index.html] with keyword
    arguments.  Here it returns the messages flashed and the arguments
    of [render_template]; an exception that leaves [compute_duplicates]
    is not caught by the handler and is its result.  The database is
    outside: [run_query] is a parameter that gives, for a query, the
    frame read or the text of the exception raised
    ([initialize_database] only prepares what [run_query] reads). *)

Inductive Method := GET | POST.

Record Request := {
  method : Method;
  form_query : option pystr;          (* request.form.get("query", "") *)
  form_selected_keys : list string    (* request.form.getlist("selected_keys") *)
}.

Inductive QueryOutcome :=
  | Fetched (df : DataFrame)
  | Failed (exc : string).

(** The keyword arguments of [render_template("index.html", ...)];
    [shown_columns] is the argument [columns]. *)
Record Page := {
  query : pystr;
  selected_keys : list string;
  duplicates_table : option (list (list (string * Scalar)));
  difference_summary : list DifferenceRecord;
  shown_columns : list string;
  available_columns : list string;
  selected_keys_label : string
}.

Record Response := {
  flashed : list (string * string);   (* message, category *)
  page : Page
}.

(** [sep.join(parts)] *)
Fixpoint join (sep : string) (parts : list string) : string :=
  match parts with
  | [] => ""
  | part :: rest =>
      match rest with
      | [] => part
      | _ :: _ => part +:+ sep +:+ join sep rest
      end
  end.

(** [df.to_dict(orient="records")]: one dict per row, from column label
    to cell, in the order of the columns. *)
Definition to_dict (df : DataFrame) : list (list (string * Scalar)) :=
  (λ ir, (λ col, (col, get ir.2 col)) <$> columns df) <$> rows df.

(** The page of the early returns: no table, no summary. *)
Definition no_results (query_input : pystr) (selected : list string)
    (available : list string) : Page :=
  {| query := query_input;
     selected_keys := selected;
     duplicates_table := None;
     difference_summary := [];
     shown_columns := [];
     available_columns := available;
     selected_keys_label := "" |}.

Definition index `{Pandas} (run_query : pystr → QueryOutcome) (request : Request)
  : Result Response :=
  match method request with
  | GET => Ok {| flashed := []; page := no_results [] [] [] |}
  | POST =>
      let query_input := default [] (form_query request) in
      let selected := form_selected_keys request in
      match build_query_from_input query_input with
      | Raise (ValueError exc) =>
          Ok {| flashed := [(exc, "danger")];
                page := no_results query_input selected [] |}
      | Raise exc => Raise exc
      | Ok sql =>
          match run_query sql with
          | Failed exc =>
              Ok {| flashed := [("Erro ao executar a consulta: " +:+ exc, "danger")];
                    page := no_results query_input selected [] |}
          | Fetched df =>
              if bool_decide (selected = []) then
                Ok {| flashed :=
                        [("Selecione ao menos uma coluna para identificar as duplicidades.",
                          "info")];
                      page := no_results query_input selected (columns df) |}
              else
                let missing_keys := filter (λ key, key ∉ columns df) selected in
                if bool_decide (missing_keys = []) then
                  result ←! compute_duplicates df selected;
                  let duplicates_df := result.1 in
                  let table :=
                    if is_empty duplicates_df then None
                    else Some (to_dict duplicates_df) in
                  Ok {| flashed :=
                          if is_empty duplicates_df then
                            [("Nenhuma duplicidade encontrada para as colunas informadas.",
                              "info")]
                          else [];
                        page :=
                          {| query := query_input;
                             selected_keys := selected;
                             duplicates_table := table;
                             difference_summary := result.2;
                             shown_columns :=
                               match table with
                               | Some (first :: _) => first.*1
                               | _ => []
                               end;
                             available_columns := columns df;
                             selected_keys_label := join ", " selected |} |}
                else
                  Ok {| flashed :=
                          [("Colunas não encontradas no resultado: "
                              +:+ join ", " missing_keys, "danger")];
                        page := no_results query_input selected (columns df) |}
          end
      end
  end.

(** ** A sort that stands for numpy's

    One implementation of [Pandas]: the stable sort, and 1-tuples as
    group keys (pandas 2). *)

Definition stable_argsort (l : list Scalar) : list nat :=
  lexsort_indexer ((λ v, [v]) <$> l).

#[global] Instance stable_pandas : Pandas :=
  {| argsort := stable_argsort; scalar_group_key := false |}.

(** pandas 1: a one-column [groupby] yields bare cells. *)
Definition legacy_pandas : Pandas :=
  {| argsort := stable_argsort; scalar_group_key := true |}.

(** ** The words of the specification about the query text *)

(** [t] is [s] without the white space at its two ends. *)
Definition trimmed (s t : pystr) : Prop :=
  ∃ pre post,
    s = pre ++ t ++ post
    ∧ Forall (λ c, isspace c = true) pre
    ∧ Forall (λ c, isspace c = true) post
    ∧ (∀ c, head t = Some c → isspace c = false)
    ∧ (∀ c, last t = Some c → isspace c = false).

(** [c] is the small letter [p] or its capital. *)
Definition same_letter (c p : N) : Prop := (c = p ∨ c + 32 = p)%N.

(** [t] begins with [word], whatever the case of its letters. *)
Definition begins_with (word t : pystr) : Prop :=
  ∃ h rest, t = h ++ rest ∧ Forall2 same_letter h word.

Definition small_letter (p : N) : Prop := (97 ≤ p ∧ p ≤ 122)%N.

(** ** Reading a result *)

Definition frame_of (r : Result (DataFrame * list DifferenceRecord)) : DataFrame :=
  match r with
  | Ok (df, _) => df
  | Raise _ => {| columns := []; rows := [] |}
  end.

Definition summary_of (r : Result (DataFrame * list DifferenceRecord))
  : list DifferenceRecord :=
  match r with
  | Ok (_, summary) => summary
  | Raise _ => []
  end.

(** The ordinal written next to the row labelled [i]. *)
Definition ordinal_of (df : DataFrame) (i : nat) : option Scalar :=
  (λ found, get found.2.2 "ordem") <$> list_find (λ ir, ir.1 = i) (rows df).

(** The ordinal written next to the row that holds [v] in column [col]. *)
Definition ordinal_where (df : DataFrame) (col : string) (v : Scalar) : option Scalar :=
  (λ found, get found.2.2 "ordem") <$> list_find (λ ir, get ir.2 col = v) (rows df).

(** ** Tables used as examples *)

Definition flight (airline flight_number origin destination departure_time status : string)
  : Row :=
  list_to_map [("airline", SText airline); ("flight_number", SText flight_number);
               ("origin", SText origin); ("destination", SText destination);
               ("departure_time", SText departure_time); ("status", SText status)].

Definition flight_columns : list string :=
  ["airline"; "flight_number"; "origin"; "destination"; "departure_time"; "status"].

Definition no_horario : Row :=
  flight "Safra Air" "202" "GRU" "GIG" "2024-01-01T06:00:00" "No Horário".
Definition atrasado : Row :=
  flight "Safra Air" "202" "GRU" "GIG" "2024-01-01T06:00:00" "Atrasado".
Definition embarque : Row :=
  flight "Aurora" "450" "BSB" "REC" "2024-01-01T08:00:00" "Embarque".

(** The scenario of the specification, and the same rows with the two
    Safra Air rows exchanged. *)
Definition scenario : DataFrame :=
  read_frame flight_columns [no_horario; atrasado; embarque].
Definition scenario_permuted : DataFrame :=
  read_frame flight_columns [atrasado; no_horario; embarque].

Definition scenario_keys : list string :=
  ["airline"; "flight_number"; "origin"; "destination"; "departure_time"].

Definition scenario_record : DifferenceRecord :=
  {| key := KTuple [SText "Safra Air"; SText "202"; SText "GRU"; SText "GIG";
                    SText "2024-01-01T06:00:00"];
     duplicate_count := 2;
     difference_columns := ["status"] |}.

(** Four rows in two groups, [(NULL, 'a')] and [(NULL, 'b')], on the
    key columns [k1], [k2]; as from
    [SELECT NULL AS k1, 'a' AS k2, 'x' AS v UNION ALL SELECT NULL, 'a', 'y'
     UNION ALL SELECT NULL, 'b', 'x' UNION ALL SELECT NULL, 'b', 'y']. *)
Definition null_key_row (k2 v : string) : Row :=
  list_to_map [("k1", SNull); ("k2", SText k2); ("v", SText v)].

Definition null_key_table : DataFrame :=
  read_frame ["k1"; "k2"; "v"]
    [null_key_row "a" "x"; null_key_row "a" "y";
     null_key_row "b" "x"; null_key_row "b" "y"].

(** [SELECT 1 AS k, NULL AS v UNION ALL SELECT 1, 'x']: one group in
    which [v] is NULL once. *)
Definition null_value_table : DataFrame :=
  read_frame ["k"; "v"]
    [list_to_map [("k", SInt 1); ("v", SNull)];
     list_to_map [("k", SInt 1); ("v", SText "x")]].

(** The scenario grouped on the airline alone. *)
Definition airline_record : DifferenceRecord :=
  {| key := KTuple [SText "Safra Air"];
     duplicate_count := 2;
     difference_columns := ["status"] |}.

Definition null_value_record : DifferenceRecord :=
  {| key := KTuple [SInt 1]; duplicate_count := 2; difference_columns := [] |}.

(** A database that holds the scenario as its table [flights], and a
    request for its duplicates. *)
Definition scenario_db (sql : pystr) : QueryOutcome :=
  if bool_decide (sql = lit "SELECT * FROM flights") then Fetched scenario
  else Failed "no such table".

Definition scenario_request : Request :=
  {| method := POST;
     form_query := Some (lit "flights");
     form_selected_keys := scenario_keys |}.

Definition blank_request : Request :=
  {| method := POST;
     form_query := Some (lit "   ");
     form_selected_keys := scenario_keys |}.

(** ** The stages of [compute_duplicates], named for the statements *)

(** A row is a duplicate when its key occurs at least twice. *)
Definition is_duplicate (keys : list string) (df : DataFrame) (ir : nat * Row) : Prop :=
  2 ≤ count_key (row_key keys ir) (row_key keys <$> rows df).

#[global] Instance is_duplicate_dec keys df ir : Decision (is_duplicate keys df ir).
Proof. unfold is_duplicate. apply _. Defined.

(** [df.loc[duplicates_mask]] *)
Definition duplicate_frame (keys : list string) (df : DataFrame) : DataFrame :=
  {| columns := columns df; rows := filter (is_duplicate keys df) (rows df) |}.

(** The duplicates after [sort_values], before the ordinals are written. *)
Definition sorted_frame `{Pandas} (keys : list string) (df : DataFrame) : DataFrame :=
  sort_values keys (duplicate_frame keys df).

(** The column of ordinals. *)
Definition ordem `{Pandas} (keys : list string) (df : DataFrame) : list Scalar :=
  add_one <$> cumcount keys (sorted_frame keys df).

(** The frame that [compute_duplicates] returns when there are duplicates. *)
Definition annotated_frame `{Pandas} (keys : list string) (df : DataFrame) : DataFrame :=
  let d := setitem (sorted_frame keys df) "ordem" (ordem keys df) in
  getitem d ("ordem" :: filter (λ col, col ≠ "ordem") (columns d)).

(** One entry of [difference_summary]. *)
Definition summarise (non_key_columns : list string)
    (g : GroupKey * list (nat * Row)) : DifferenceRecord :=
  {| key := as_tuple g.1;
     duplicate_count := length g.2;
     difference_columns :=
       filter (λ col, 1 < nunique ((λ ir, get ir.2 col) <$> g.2)) non_key_columns |}.

(** The summary read off the cells alone: one record per key without
    NULL, in ascending order of the keys. *)
Definition group_record (keys non_key_columns : list string) (rs : list Row)
    (k : list Scalar) : DifferenceRecord :=
  let g := filter (λ r, project keys r = k) rs in
  {| key := KTuple k;
     duplicate_count := length g;
     difference_columns :=
       filter (λ col, 1 < nunique ((λ r, get r col) <$> g)) non_key_columns |}.

Definition summary_from (keys non_key_columns : list string) (rs : list Row)
  : list DifferenceRecord :=
  group_record keys non_key_columns rs <$> sorted_group_keys (project keys <$> rs).

(** The cells of the duplicate rows, read off the cells of the table. *)
Definition duplicate_cells (keys : list string) (rs : list Row) : list Row :=
  filter (λ r, 2 ≤ count_key (project keys r) (project keys <$> rs)) rs.

(** Two rows with the same cells in the columns [cols]. *)
Definition agree_on (cols : list string) (r r' : Row) : Prop :=
  ∀ c, c ∈ cols → get r c = get r' c.

(** The order of rows by their key. *)
Definition by_key {A} (keyf : A → list Scalar) : relation A :=
  λ a b, key_le (keyf a) (keyf b).

(** The rows whose cell under [f] is not NULL, and those whose cell is. *)
Definition not_null {A} (f : A → Scalar) (a : A) : Prop := isna (f a) = false.
Definition null {A} (f : A → Scalar) (a : A) : Prop := isna (f a) = true.

#[global] Instance not_null_dec {A} (f : A → Scalar) a : Decision (not_null f a).
Proof. unfold not_null. apply _. Defined.
#[global] Instance null_dec {A} (f : A → Scalar) a : Decision (null f a).
Proof. unfold null. apply _. Defined.
#[global] Typeclasses Opaque not_null null.

(** For each position, the number of earlier occurrences of its key. *)
Definition prefix_counts (ks : list (list Scalar)) : list nat :=
  imap (λ p k, count_key k (take p ks)) ks.

(** The labels of the index, in row order. *)
Definition labels (df : DataFrame) : list nat := (rows df).*1.

(** Decidable facts about concrete tables are settled by evaluation. *)
Ltac by_compute :=
  lazymatch goal with
  | |- ¬ ?P => apply (bool_decide_eq_false_1 P); vm_compute; reflexivity
  | |- ?P => apply (bool_decide_eq_true_1 P); vm_compute; reflexivity
  end.

(** * Properties *)

(** ** The orders are total orders *)

Section compare.
Context {A : Type} (cmp : A → A → comparison) `{!TotalCompare cmp}.

Lemma compare_refl x : cmp x x = Eq.
Proof. by apply (compare_eq (cmp:=cmp)). Qed.

Lemma compare_gt_lt x y : cmp x y = Gt ↔ cmp y x = Lt.
Proof. rewrite (compare_flip (cmp:=cmp) x y). destruct (cmp x y); simpl; naive_solver. Qed.

Lemma compare_eq_sym x y : cmp x y = Eq → cmp y x = Eq.
Proof. rewrite !(compare_eq (cmp:=cmp)). done. Qed.

Lemma leb_le x y : leb cmp x y = true ↔ cmp_le cmp x y.
Proof. unfold leb, cmp_le. destruct (cmp x y); naive_solver. Qed.

Lemma cmp_le_lt_eq x y : cmp_le cmp x y ↔ cmp x y = Lt ∨ x = y.
Proof.
  unfold cmp_le. rewrite <-(compare_eq (cmp:=cmp)).
  destruct (cmp x y); intuition congruence.
Qed.

#[local] Instance cmp_le_refl : Reflexive (cmp_le cmp).
Proof. intros x. unfold cmp_le. by rewrite compare_refl. Qed.

#[local] Instance cmp_le_trans : Transitive (cmp_le cmp).
Proof.
  intros x y z. rewrite !cmp_le_lt_eq.
  intros [Hxy | ->] [Hyz | ->]; auto.
  left. exact (compare_lt_trans (cmp:=cmp) _ _ _ Hxy Hyz).
Qed.

#[local] Instance cmp_le_total : Total (cmp_le cmp).
Proof.
  intros x y. unfold cmp_le. rewrite (compare_flip (cmp:=cmp) x y).
  destruct (cmp x y); simpl; naive_solver.
Qed.

#[local] Instance cmp_le_antisym : AntiSymm (=) (cmp_le cmp).
Proof.
  intros x y. rewrite !cmp_le_lt_eq. intros [Hxy | ->] [Hyx | Heq]; try done.
  apply compare_gt_lt in Hyx. congruence.
Qed.

#[local] Instance cmp_lt_trans : Transitive (cmp_lt cmp).
Proof. intros x y z. apply (compare_lt_trans (cmp:=cmp)). Qed.

Lemma cmp_lt_irrefl x : ¬ cmp_lt cmp x x.
Proof. unfold cmp_lt. by rewrite compare_refl. Qed.

Lemma cmp_lt_le x y : cmp_lt cmp x y → cmp_le cmp x y.
Proof. unfold cmp_lt, cmp_le. congruence. Qed.

Lemma not_cmp_le x y : ¬ cmp_le cmp x y ↔ cmp_lt cmp y x.
Proof.
  unfold cmp_le, cmp_lt. rewrite <-compare_gt_lt.
  destruct (cmp x y); naive_solver.
Qed.

#[global] Instance lex_compare_total : TotalCompare (lex_compare cmp).
Proof.
  split.
  - intros l1. induction l1 as [|x l1 IH]; intros [|y l2]; simpl; try done.
    destruct (cmp x y) eqn:Hc.
    + apply (compare_eq (cmp:=cmp)) in Hc as ->. rewrite IH. naive_solver.
    + split; [done|]. intros [= -> _]. by rewrite compare_refl in Hc.
    + split; [done|]. intros [= -> _]. by rewrite compare_refl in Hc.
  - intros l1. induction l1 as [|x l1 IH]; intros [|y l2]; simpl; try done.
    rewrite (compare_flip (cmp:=cmp) x y). destruct (cmp x y); simpl; auto.
  - intros l1. induction l1 as [|x l1 IH]; intros [|y l2] [|z l3]; simpl; try done.
    destruct (cmp x y) eqn:Hxy; try done.
    + apply (compare_eq (cmp:=cmp)) in Hxy as ->. destruct (cmp y z); eauto.
    + intros _. destruct (cmp y z) eqn:Hyz; try done.
      * apply (compare_eq (cmp:=cmp)) in Hyz as ->. by rewrite Hxy.
      * by rewrite (compare_lt_trans (cmp:=cmp) _ _ _ Hxy Hyz).
Qed.
End compare.

#[global] Instance N_compare_total : TotalCompare N.compare.
Proof.
  split.
  - apply N.compare_eq_iff.
  - intros x y. apply N.compare_antisym.
  - intros x y z. rewrite !N.compare_lt_iff. apply N.lt_trans.
Qed.

#[global] Instance Z_compare_total : TotalCompare Z.compare.
Proof.
  split.
  - apply Z.compare_eq_iff.
  - intros x y. apply Z.compare_antisym.
  - intros x y z. rewrite !Z.compare_lt_iff. apply Z.lt_trans.
Qed.

Lemma text_codes_inj s1 s2 : text_codes s1 = text_codes s2 → s1 = s2.
Proof.
  revert s2. induction s1 as [|a s1 IH]; intros [|b s2]; simpl; try done.
  intros [= Hab Hs]. f_equal; [|by apply IH].
  by rewrite <-(ascii_N_embedding a), <-(ascii_N_embedding b), Hab.
Qed.

#[global] Instance text_compare_total : TotalCompare text_compare.
Proof.
  unfold text_compare. split.
  - intros x y. rewrite (compare_eq (cmp:=lex_compare N.compare)).
    split; [apply text_codes_inj | by intros ->].
  - intros x y. apply (compare_flip (cmp:=lex_compare N.compare)).
  - intros x y z. apply (compare_lt_trans (cmp:=lex_compare N.compare)).
Qed.

#[global] Instance scalar_compare_total : TotalCompare scalar_compare.
Proof.
  split.
  - intros [|x|x] [|y|y]; simpl; try done.
    + rewrite (compare_eq (cmp:=Z.compare)). naive_solver.
    + rewrite (compare_eq (cmp:=text_compare)). naive_solver.
  - intros [|x|x] [|y|y]; simpl; try done.
    + apply (compare_flip (cmp:=Z.compare)).
    + apply (compare_flip (cmp:=text_compare)).
  - intros [|x|x] [|y|y] [|z|z]; simpl; try done.
    + apply (compare_lt_trans (cmp:=Z.compare)).
    + apply (compare_lt_trans (cmp:=text_compare)).
Qed.

#[global] Instance key_compare_total : TotalCompare key_compare.
Proof. unfold key_compare. apply _. Qed.

(** ** Positional selection *)

Lemma take_rows_seq_app {A} (pre l : list A) :
  take_rows (seq (length pre) (length l)) (pre ++ l) = l.
Proof.
  unfold take_rows. revert pre. induction l as [|x l IH]; intros pre; simpl; [done|].
  rewrite list_lookup_middle by done. simpl. f_equal.
  specialize (IH (pre ++ [x])). rewrite length_app, Nat.add_comm in IH. simpl in IH.
  by rewrite <-app_assoc in IH.
Qed.

Lemma take_rows_seq {A} (l : list A) : take_rows (seq 0 (length l)) l = l.
Proof. apply (take_rows_seq_app []). Qed.

Lemma take_rows_Permutation {A} (indexer : list nat) (l : list A) :
  indexer ≡ₚ seq 0 (length l) → take_rows indexer l ≡ₚ l.
Proof.
  intros Hp. rewrite <-(take_rows_seq l) at 2.
  unfold take_rows. by rewrite Hp.
Qed.

Lemma take_rows_app {A} (i1 i2 : list nat) (l : list A) :
  take_rows (i1 ++ i2) l = take_rows i1 l ++ take_rows i2 l.
Proof. apply omap_app. Qed.

Lemma take_rows_fmap {A B} (f : A → B) (indexer : list nat) (l : list A) :
  take_rows indexer (f <$> l) = f <$> take_rows indexer l.
Proof.
  unfold take_rows. induction indexer as [|i indexer IH]; csimpl; [done|].
  rewrite list_lookup_fmap, IH. by destruct (l !! i).
Qed.

(** ** The stable sort *)

Section stable_sort.
Context {A : Type} (keyf : A → list Scalar).

Lemma insert_sorted_Permutation x l : insert_sorted keyf x l ≡ₚ x :: l.
Proof.
  induction l as [|y l IH]; simpl; [done|].
  destruct (leb _ _ _); [done|]. by rewrite IH, Permutation_swap.
Qed.

Lemma stable_sort_Permutation l : stable_sort keyf l ≡ₚ l.
Proof.
  induction l as [|x l IH]; simpl; [done|].
  by rewrite insert_sorted_Permutation, IH.
Qed.

Lemma insert_sorted_HdRel a x l :
  (by_key keyf) a x → HdRel (by_key keyf) a l → HdRel (by_key keyf) a (insert_sorted keyf x l).
Proof.
  intros Hax Hal. destruct l as [|y l]; simpl; [by constructor|].
  destruct (leb _ _ _); constructor; [done|]. by inversion Hal.
Qed.

Lemma insert_sorted_Sorted x l :
  Sorted (by_key keyf) l → Sorted (by_key keyf) (insert_sorted keyf x l).
Proof.
  induction 1 as [|y l Hl IH Hy]; simpl; [by repeat constructor|].
  destruct (leb _ _ _) eqn:Hle.
  - apply (leb_le key_compare) in Hle. by repeat constructor.
  - constructor; [done|]. apply insert_sorted_HdRel; [|done].
    assert (¬ key_le (keyf x) (keyf y)) as Hn.
    { rewrite <-(leb_le key_compare). by rewrite Hle. }
    apply (not_cmp_le key_compare) in Hn. by apply (cmp_lt_le key_compare).
Qed.

Lemma stable_sort_Sorted l : Sorted (by_key keyf) (stable_sort keyf l).
Proof.
  induction l as [|x l IH]; simpl; [constructor|].
  by apply insert_sorted_Sorted.
Qed.

(** Stability: the rows of one key keep their order. *)
Lemma insert_sorted_stable k x l :
  filter (λ a, keyf a = k) (insert_sorted keyf x l)
  = filter (λ a, keyf a = k) (x :: l).
Proof.
  induction l as [|y l IH]; simpl; [done|].
  destruct (leb _ _ _) eqn:Hle; [done|].
  assert (keyf x ≠ keyf y) as Hne.
  { intros Heq. unfold leb in Hle. rewrite Heq in Hle.
    by rewrite (compare_refl key_compare) in Hle. }
  rewrite (filter_cons _ y (insert_sorted _ _ _)), IH, !filter_cons.
  repeat case_decide; simplify_eq; done.
Qed.

Lemma stable_sort_stable k l :
  filter (λ a, keyf a = k) (stable_sort keyf l) = filter (λ a, keyf a = k) l.
Proof.
  induction l as [|x l IH]; simpl; [done|].
  rewrite insert_sorted_stable, !filter_cons, IH. done.
Qed.
End stable_sort.

(** Sorting related lists with equal keys gives related lists. *)
Lemma insert_sorted_Forall2 {A B} (R : A → B → Prop) (ka : A → list Scalar)
    (kb : B → list Scalar) x y l l' :
  (∀ a b, R a b → ka a = kb b) →
  R x y → Forall2 R l l' →
  Forall2 R (insert_sorted ka x l) (insert_sorted kb y l').
Proof.
  intros Hk Hxy. induction 1 as [|a b l l' Hab Hl IH]; simpl.
  - by repeat constructor.
  - rewrite (Hk _ _ Hxy), (Hk _ _ Hab).
    destruct (leb _ _ _); repeat constructor; done.
Qed.

Lemma stable_sort_Forall2 {A B} (R : A → B → Prop) (ka : A → list Scalar)
    (kb : B → list Scalar) l l' :
  (∀ a b, R a b → ka a = kb b) →
  Forall2 R l l' → Forall2 R (stable_sort ka l) (stable_sort kb l').
Proof.
  intros Hk. induction 1; simpl; [constructor|].
  by apply insert_sorted_Forall2.
Qed.

Lemma take_rows_Forall2 {A B} (l : list A) (ps : list (nat * B)) (out : list A) :
  Forall2 (λ p a, l !! p.1 = Some a) ps out → take_rows (fst <$> ps) l = out.
Proof.
  unfold take_rows. induction 1 as [|p a ps out Hp _ IH]; csimpl; [done|].
  rewrite Hp. csimpl. by rewrite IH.
Qed.

(** Sorting the positions and fetching the rows is sorting the rows. *)
Lemma take_rows_lexsort {A} (keyf : A → list Scalar) (l : list A) :
  take_rows (lexsort_indexer (keyf <$> l)) l = stable_sort keyf l.
Proof.
  unfold lexsort_indexer. apply take_rows_Forall2.
  eapply Forall2_impl with (P := λ p a, l !! p.1 = Some a ∧ p.2 = keyf a);
    [|by intros ?? [? _]].
  apply stable_sort_Forall2.
  - by intros ?? [_ ?].
  - rewrite length_fmap. apply Forall2_same_length_lookup_2.
    + by rewrite length_zip, length_seq, length_fmap, Nat.min_id.
    + intros i [p k] a Hz Ha. apply lookup_zip_with_Some in Hz
        as (p' & k' & [= <- <-] & Hp & Hk).
      apply lookup_seq in Hp as [-> _]. rewrite list_lookup_fmap, Ha in Hk.
      simpl in *. by simplify_eq.
Qed.

Lemma Sorted_impl {A} (R R' : relation A) l :
  (∀ x y, R x y → R' x y) → Sorted R l → Sorted R' l.
Proof.
  intros HR. induction 1 as [|x l _ IH Hx]; constructor; [done|].
  destruct Hx; constructor; auto.
Qed.

Lemma lexsort_indexer_Permutation ks : lexsort_indexer ks ≡ₚ seq 0 (length ks).
Proof.
  unfold lexsort_indexer. rewrite stable_sort_Permutation, fst_zip; [done|].
  by rewrite length_seq.
Qed.

Lemma key_le_singleton a b : key_le [a] [b] ↔ scalar_le a b.
Proof.
  unfold key_le, scalar_le, cmp_le, key_compare. simpl.
  destruct (scalar_compare a b); naive_solver.
Qed.

Lemma stable_argsort_Permutation l : stable_argsort l ≡ₚ seq 0 (length l).
Proof.
  unfold stable_argsort. by rewrite lexsort_indexer_Permutation, length_fmap.
Qed.

Lemma stable_argsort_Sorted l : Sorted scalar_le (take_rows (stable_argsort l) l).
Proof.
  unfold stable_argsort. rewrite take_rows_lexsort.
  eapply Sorted_impl; [|apply stable_sort_Sorted].
  intros x y. apply key_le_singleton.
Qed.

(** The stable sort is one of the sorts [Pandas] allows. *)
#[global] Instance stable_pandas_laws : PandasLaws stable_pandas.
Proof. split; [apply stable_argsort_Permutation | apply stable_argsort_Sorted]. Qed.

#[global] Instance legacy_pandas_laws : PandasLaws legacy_pandas.
Proof. split; [apply stable_argsort_Permutation | apply stable_argsort_Sorted]. Qed.

(** ** Boolean indexing *)

Lemma select_nil_r {A} (l : list A) : select l [] = [].
Proof. unfold select. by destruct l. Qed.

Lemma select_cons {A} (x : A) l b m :
  select (x :: l) (b :: m) = if b then x :: select l m else select l m.
Proof.
  unfold select. simpl. rewrite filter_cons. simpl.
  destruct b; case_decide; done.
Qed.

Lemma select_fmap_filter {A} (g : A → bool) (l : list A) :
  select l (g <$> l) = filter (λ x, g x = true) l.
Proof.
  induction l as [|x l IH]; [done|].
  rewrite fmap_cons, select_cons, filter_cons, IH.
  destruct (g x); case_decide; done.
Qed.

Lemma select_fmap {A B} (f : A → B) (l : list A) m :
  select (f <$> l) m = f <$> select l m.
Proof.
  revert m. induction l as [|x l IH]; intros m; [by destruct m|].
  destruct m as [|b m]; [by rewrite !select_nil_r|].
  rewrite fmap_cons, !select_cons, IH. by destruct b.
Qed.

Lemma select_Forall2 {A B} (R : A → B → Prop) l l' m :
  Forall2 R l l' → Forall2 R (select l m) (select l' m).
Proof.
  intros H. revert m. induction H as [|x y l l' Hxy _ IH]; intros m.
  - unfold select. simpl. constructor.
  - destruct m as [|b m]; [rewrite !select_nil_r; constructor|].
    rewrite !select_cons. destruct b; [constructor|]; auto.
Qed.

Lemma Forall2_lookup_seq {A} (l : list A) :
  Forall2 (λ i a, l !! i = Some a) (seq 0 (length l)) l.
Proof.
  apply Forall2_same_length_lookup_2; [by rewrite length_seq|].
  intros i p a Hp Ha. apply lookup_seq in Hp as [-> _]. done.
Qed.

Lemma take_rows_lookup_Forall2 {A} (l : list A) indexer out :
  Forall2 (λ i a, l !! i = Some a) indexer out → take_rows indexer l = out.
Proof.
  unfold take_rows. induction 1 as [|p a ps out' Hp _ IH]; csimpl; [done|].
  rewrite Hp. csimpl. by rewrite IH.
Qed.

Lemma take_rows_preserves_Forall2 {A B} (R : A → B → Prop) indexer l l' :
  Forall2 R l l' → Forall2 R (take_rows indexer l) (take_rows indexer l').
Proof.
  intros H. unfold take_rows. induction indexer as [|i indexer IH]; csimpl.
  - constructor.
  - destruct (l !! i) as [a|] eqn:Ha.
    + destruct (Forall2_lookup_l _ _ _ _ _ H Ha) as (b & -> & ?).
      csimpl. by constructor.
    + assert (l' !! i = None) as ->; [|done].
      apply lookup_ge_None. apply lookup_ge_None in Ha.
      by rewrite <-(Forall2_length _ _ _ H).
Qed.

(** ** The single-key sort *)

Section nargsort.
Context `{!PandasLaws P} {A : Type} (f : A → Scalar).

(** The rows whose cell is not NULL, sorted by [argsort], then the
    rows whose cell is NULL, in their order. *)
Lemma take_rows_nargsort (l : list A) :
  take_rows (nargsort (f <$> l)) l
  = take_rows (argsort (f <$> filter (not_null f) l)) (filter (not_null f) l)
    ++ filter (null f) l.
Proof.
  unfold nargsort. rewrite take_rows_app.
  rewrite <-(list_fmap_compose f isna), <-(list_fmap_compose (isna ∘ f) negb).
  rewrite select_fmap, length_fmap.
  assert (filter (not_null f) l = select l ((negb ∘ (isna ∘ f)) <$> l)) as ->.
  { rewrite select_fmap_filter. apply list_filter_iff. intros a.
    unfold not_null. simpl. by destruct (isna (f a)). }
  assert (filter (null f) l = select l ((isna ∘ f) <$> l)) as ->.
  { by rewrite select_fmap_filter. }
  f_equal; apply take_rows_lookup_Forall2.
  - apply take_rows_preserves_Forall2, select_Forall2, Forall2_lookup_seq.
  - apply select_Forall2, Forall2_lookup_seq.
Qed.

Lemma take_rows_nargsort_Permutation (l : list A) :
  take_rows (nargsort (f <$> l)) l ≡ₚ l.
Proof.
  rewrite take_rows_nargsort, take_rows_Permutation.
  - rewrite <-(filter_app_complement (not_null f) l) at 3. f_equiv.
    erewrite list_filter_iff; [done|]. intros a. unfold null, not_null.
    by destruct (isna (f a)).
  - rewrite argsort_perm. by rewrite length_fmap.
Qed.

Lemma Sorted_app_null (l1 l2 : list Scalar) :
  Sorted scalar_le l1 → Forall (λ v, v = SNull) l2 →
  Sorted scalar_le (l1 ++ l2).
Proof.
  intros H1 H2.
  assert (∀ x, scalar_le x SNull) as Hmax.
  { intros x. unfold scalar_le, cmp_le. by destruct x. }
  induction H1 as [|x l1 _ IH Hx]; simpl.
  - induction H2 as [|y l2 Hy Hl2 IH]; constructor; [done|].
    destruct Hl2 as [|z l2 Hz _]; constructor. subst. apply Hmax.
  - constructor; [done|]. destruct Hx; simpl; [|by constructor].
    destruct H2 as [|y l2 Hy _]; constructor. subst. apply Hmax.
Qed.

Lemma take_rows_nargsort_Sorted (l : list A) :
  Sorted scalar_le (f <$> take_rows (nargsort (f <$> l)) l).
Proof.
  rewrite take_rows_nargsort, fmap_app, <-take_rows_fmap.
  apply Sorted_app_null; [apply argsort_sorted|].
  apply Forall_fmap, Forall_forall. intros a [Ha _]%list_elem_of_filter.
  unfold null in Ha. simpl. by destruct (f a).
Qed.
End nargsort.

(** ** [compute_duplicates], stage by stage *)

Section stages.
Context `{!PandasLaws P}.
Implicit Types (df : DataFrame) (keys : list string).

Lemma is_empty_false df : is_empty df = false ↔ columns df ≠ [] ∧ rows df ≠ [].
Proof.
  unfold is_empty. rewrite bool_decide_eq_false.
  destruct (columns df), (rows df); naive_solver.
Qed.

Lemma is_empty_true df : is_empty df = true ↔ columns df = [] ∨ rows df = [].
Proof. unfold is_empty. by rewrite bool_decide_eq_true. Qed.

Lemma missing_nil df keys :
  remove_dups (filter (λ c, c ∉ columns df) keys) = []
  ↔ Forall (λ c, c ∈ columns df) keys.
Proof.
  rewrite Forall_forall. split.
  - intros Hnil c Hc. destruct (decide (c ∈ columns df)) as [|Hn]; [done|].
    assert (c ∈ remove_dups (filter (λ c, c ∉ columns df) keys)) as Hin.
    { by apply elem_of_remove_dups, list_elem_of_filter. }
    rewrite Hnil in Hin. by apply elem_of_nil in Hin.
  - intros Hall. apply elem_of_nil_inv. intros c.
    rewrite elem_of_remove_dups, list_elem_of_filter. naive_solver.
Qed.

Lemma duplicated_Ok df keys :
  is_empty df = false → keys ≠ [] → Forall (λ c, c ∈ columns df) keys →
  duplicated df keys
  = Ok ((λ ir, bool_decide (is_duplicate keys df ir)) <$> rows df).
Proof.
  intros He Hk Hall. unfold duplicated. rewrite He.
  rewrite bool_decide_true by by apply missing_nil.
  rewrite bool_decide_false by done.
  by rewrite <-list_fmap_compose.
Qed.

Lemma loc_duplicated df keys :
  loc df ((λ ir, bool_decide (is_duplicate keys df ir)) <$> rows df)
  = duplicate_frame keys df.
Proof.
  unfold loc, duplicate_frame. f_equal. rewrite select_fmap_filter.
  apply list_filter_iff. intros ir. by rewrite bool_decide_eq_true.
Qed.

(** The whole of [compute_duplicates] on a frame with rows and a
    valid key list. *)
Lemma compute_duplicates_valid df keys :
  is_empty df = false → keys ≠ [] → Forall (λ c, c ∈ columns df) keys →
  compute_duplicates df keys
  = if is_empty (duplicate_frame keys df) then Ok (duplicate_frame keys df, [])
    else Ok (annotated_frame keys df,
             summarise (filter (λ col, col ∉ keys) (columns df))
               <$> groupby keys (annotated_frame keys df)).
Proof.
  intros He Hk Hall. unfold compute_duplicates. rewrite He.
  rewrite duplicated_Ok by done. simpl. rewrite loc_duplicated.
  destruct (is_empty (duplicate_frame keys df)); [done|].
  f_equal. f_equal. apply list_fmap_ext. by intros _ [??] _.
Qed.

Lemma sort_values_columns keys df : columns (sort_values keys df) = columns df.
Proof. unfold sort_values. by destruct keys as [|? [|??]]. Qed.

Lemma sort_values_cons_cons k1 k2 keys df :
  rows (sort_values (k1 :: k2 :: keys) df)
  = stable_sort (row_key (k1 :: k2 :: keys)) (rows df).
Proof. unfold sort_values. simpl. apply take_rows_lexsort. Qed.

Lemma sort_values_Permutation keys df : rows (sort_values keys df) ≡ₚ rows df.
Proof.
  destruct keys as [|k1 [|k2 keys]]; [done| |].
  - apply (take_rows_nargsort_Permutation (λ ir, get ir.2 k1)).
  - rewrite sort_values_cons_cons. apply stable_sort_Permutation.
Qed.

Lemma sorted_frame_Permutation keys df :
  rows (sorted_frame keys df) ≡ₚ filter (is_duplicate keys df) (rows df).
Proof. unfold sorted_frame. by rewrite sort_values_Permutation. Qed.

Lemma length_cumcount keys df : length (cumcount keys df) = length (rows df).
Proof. unfold cumcount. by rewrite length_imap, length_fmap. Qed.

Lemma length_ordem keys df :
  length (ordem keys df) = length (rows (sorted_frame keys df)).
Proof. unfold ordem. by rewrite length_fmap, length_cumcount. Qed.

Lemma annotated_rows keys df :
  rows (annotated_frame keys df)
  = zip_with (λ ir v, (ir.1, <["ordem" := v]> ir.2))
      (rows (sorted_frame keys df)) (ordem keys df).
Proof. done. Qed.

Lemma annotated_labels keys df :
  labels (annotated_frame keys df) = labels (sorted_frame keys df).
Proof.
  unfold labels. rewrite annotated_rows.
  pose proof (length_ordem keys df) as Hlen.
  revert Hlen. generalize (ordem keys df), (rows (sorted_frame keys df)).
  intros vs rs. revert vs. induction rs as [|r rs IH]; intros [|v vs]; simpl; try done.
  intros [= Hlen]. f_equal. by apply IH.
Qed.

Lemma annotated_lookup keys df p ir :
  rows (annotated_frame keys df) !! p = Some ir ↔
  ∃ r v, rows (sorted_frame keys df) !! p = Some (ir.1, r)
         ∧ ordem keys df !! p = Some v ∧ ir.2 = <["ordem" := v]> r.
Proof.
  rewrite annotated_rows, lookup_zip_with_Some. split.
  - intros ([i r] & v & -> & ? & ?). by exists r, v.
  - intros (r & v & ? & ? & Hr). exists (ir.1, r), v.
    destruct ir as [i r']. simpl in *. by subst.
Qed.
End stages.

Section inversion.
Context `{!PandasLaws P}.
Implicit Types (df : DataFrame) (keys : list string).

(** What [compute_duplicates] raises. *)
Lemma compute_duplicates_raises df keys :
  is_empty df = false →
  (keys = [] ∨ ¬ Forall (λ c, c ∈ columns df) keys) →
  compute_duplicates df keys
  = let diff := remove_dups (filter (λ c, c ∉ columns df) keys) in
    if bool_decide (diff = []) then
      Raise (ValueError "not enough values to unpack (expected 2, got 0)")
    else Raise (KeyError diff).
Proof.
  intros He Hbad. unfold compute_duplicates, duplicated. rewrite He. simpl.
  case_bool_decide as Hd; [|done].
  apply missing_nil in Hd. destruct Hbad as [->|]; [|done].
  by rewrite bool_decide_true.
Qed.

Lemma compute_duplicates_inv df keys out summary :
  compute_duplicates df keys = Ok (out, summary) →
  (is_empty df = true ∧ out = df ∧ summary = [])
  ∨ (is_empty df = false ∧ keys ≠ [] ∧ Forall (λ c, c ∈ columns df) keys
     ∧ ((is_empty (duplicate_frame keys df) = true
         ∧ out = duplicate_frame keys df ∧ summary = [])
        ∨ (is_empty (duplicate_frame keys df) = false
           ∧ out = annotated_frame keys df
           ∧ summary = summarise (filter (λ col, col ∉ keys) (columns df))
                         <$> groupby keys (annotated_frame keys df)))).
Proof.
  intros Hc. destruct (is_empty df) eqn:He.
  { left. unfold compute_duplicates in Hc. rewrite He in Hc. by simplify_eq. }
  right. split; [done|].
  destruct (decide (keys = [])) as [Hk|Hk].
  { rewrite compute_duplicates_raises in Hc by auto. simpl in Hc.
    by case_bool_decide. }
  destruct (decide (Forall (λ c, c ∈ columns df) keys)) as [Hall|Hall].
  2: { rewrite compute_duplicates_raises in Hc by auto. simpl in Hc.
       by case_bool_decide. }
  do 2 (split; [done|]). rewrite compute_duplicates_valid in Hc by done.
  destruct (is_empty (duplicate_frame keys df)); simplify_eq; auto.
Qed.
End inversion.

(** ** Groups *)

Lemma elem_of_insert_uniq k l x : x ∈ insert_uniq k l ↔ x = k ∨ x ∈ l.
Proof.
  induction l as [|y l IH]; simpl.
  - rewrite list_elem_of_singleton, elem_of_nil. naive_solver.
  - destruct (key_compare k y) eqn:Hc.
    + apply (compare_eq (cmp:=key_compare)) in Hc as ->.
      rewrite elem_of_cons. naive_solver.
    + rewrite !elem_of_cons. naive_solver.
    + rewrite !elem_of_cons, IH. naive_solver.
Qed.

Lemma elem_of_sorted_group_keys ks k :
  k ∈ sorted_group_keys ks ↔ k ∈ ks ∧ has_null k = false.
Proof.
  unfold sorted_group_keys.
  trans (k ∈ filter (λ k0, has_null k0 = false) ks);
    [|rewrite list_elem_of_filter; naive_solver].
  generalize (filter (λ k0, has_null k0 = false) ks). intros l.
  induction l as [|y l IH]; simpl; [done|].
  rewrite elem_of_insert_uniq, IH, elem_of_cons. naive_solver.
Qed.

Lemma as_tuple_yield_key `{Pandas} k : as_tuple (yield_key k) = KTuple k.
Proof.
  unfold yield_key. destruct k as [|v [|??]]; try done.
  by destruct scalar_group_key.
Qed.

Lemma length_row_key keys ir : length (row_key keys ir) = length keys.
Proof. unfold row_key, project. by rewrite length_fmap. Qed.

Lemma elem_of_groupby `{Pandas} keys df g :
  g ∈ groupby keys df ↔
  ∃ k, g = (yield_key k, filter (λ ir, row_key keys ir = k) (rows df))
       ∧ k ∈ row_key keys <$> rows df ∧ has_null k = false.
Proof.
  unfold groupby. rewrite list_elem_of_fmap.
  setoid_rewrite elem_of_sorted_group_keys. naive_solver.
Qed.

(** ** Distinct values *)

Lemma nunique_gt_1 (values : list Scalar) :
  1 < nunique values ↔
  ∃ x y, x ∈ values ∧ y ∈ values ∧ x ≠ SNull ∧ y ≠ SNull ∧ x ≠ y.
Proof.
  unfold nunique.
  assert (∀ x, x ∈ remove_dups (filter (λ v, isna v = false) values)
               ↔ x ∈ values ∧ x ≠ SNull) as Hin.
  { intros x. rewrite elem_of_remove_dups, list_elem_of_filter.
    destruct x; naive_solver. }
  pose proof (NoDup_remove_dups (filter (λ v, isna v = false) values)) as Hnd.
  revert Hin Hnd. generalize (remove_dups (filter (λ v, isna v = false) values)).
  intros d Hin Hnd. split.
  - destruct d as [|x [|y d]]; simpl; [lia..|]. intros _.
    exists x, y. pose proof (proj1 (Hin x)) as Hx. pose proof (proj1 (Hin y)) as Hy.
    rewrite !elem_of_cons in Hx, Hy.
    apply NoDup_cons in Hnd as [Hxy _]. rewrite elem_of_cons in Hxy.
    naive_solver.
  - intros (x & y & Hx & Hy & Hxn & Hyn & Hxy).
    assert (x ∈ d) as Hxd by by apply Hin. assert (y ∈ d) as Hyd by by apply Hin.
    destruct d as [|a [|b d]]; simpl; [|..|lia].
    + by apply elem_of_nil in Hxd.
    + apply list_elem_of_singleton in Hxd, Hyd. congruence.
Qed.

(** * The claims *)

(** C8.  On a table without rows [compute_duplicates] returns, for any
    key list, the table itself (no rows) and an empty summary; nothing
    is raised. *)
Theorem empty_table_empty_outputs `{Pandas} (cols keys : list string) :
  compute_duplicates {| columns := cols; rows := [] |} keys
  = Ok ({| columns := cols; rows := [] |}, []).
Proof.
  unfold compute_duplicates.
  assert (is_empty {| columns := cols; rows := [] |} = true) as ->; [|done].
  apply is_empty_true. by right.
Qed.




(** C10.  The key of every record is a tuple with one cell per key
    column, also when [groupby] hands out a bare cell for a single key
    column. *)
Theorem key_is_tuple `{Pandas} (df : DataFrame) (keys : list string)
    (out : DataFrame) (summary : list DifferenceRecord) (rec : DifferenceRecord) :
  compute_duplicates df keys = Ok (out, summary) →
  rec ∈ summary →
  ∃ vs, key rec = KTuple vs ∧ length vs = length keys.
Proof.
  intros Hc Hrec.
  apply compute_duplicates_inv in Hc
    as [(_ & _ & ->)|(_ & _ & _ & [(_ & _ & ->)|(_ & _ & ->)])];
    [by apply elem_of_nil in Hrec..|].
  apply list_elem_of_fmap in Hrec as (g & -> & Hg).
  apply elem_of_groupby in Hg as (k & -> & Hk & _).
  exists k. simpl. split; [apply as_tuple_yield_key|].
  apply list_elem_of_fmap in Hk as (ir & -> & _). apply length_row_key.
Qed.

Lemma key_is_tuple_witness :
  @compute_duplicates legacy_pandas scenario ["airline"]
  = Ok (frame_of (@compute_duplicates legacy_pandas scenario ["airline"]),
        [airline_record])
  ∧ airline_record ∈ [airline_record]
  ∧ ∃ vs, key airline_record = KTuple vs ∧ length vs = length ["airline"].
Proof.
  assert (@compute_duplicates legacy_pandas scenario ["airline"]
          = Ok (frame_of (@compute_duplicates legacy_pandas scenario ["airline"]),
                [airline_record])) as Hc by (vm_compute; reflexivity).
  assert (airline_record ∈ [airline_record]) as Hrec by by_compute.
  split; [exact Hc|]. split; [exact Hrec|].
  exact (@key_is_tuple legacy_pandas _ _ _ _ _ Hc Hrec).
Defined.




(** C5 on groups whose key has a NULL: [duplicated] keeps the four rows
    of [null_key_table] as two groups of duplicates, and the [groupby]
    of the summary skips both groups, which so have no record. *)
Theorem null_key_group_has_no_record :
  let out := frame_of (compute_duplicates null_key_table ["k1"; "k2"]) in
  labels out = [0; 1; 2; 3]
  ∧ row_key ["k1"; "k2"] <$> rows out
    = [[SNull; SText "a"]; [SNull; SText "a"]; [SNull; SText "b"]; [SNull; SText "b"]]
  ∧ summary_of (compute_duplicates null_key_table ["k1"; "k2"]) = [].
Proof. split_and!; by vm_compute. Qed.

(** C7 on the same groups: the two rows of each group are returned
    with NaN in place of the ordinals 1 and 2. *)
Theorem null_key_group_has_no_ordinal :
  let out := frame_of (compute_duplicates null_key_table ["k1"; "k2"]) in
  labels out = [0; 1; 2; 3]
  ∧ row_key ["k1"; "k2"] <$> rows out
    = [[SNull; SText "a"]; [SNull; SText "a"]; [SNull; SText "b"]; [SNull; SText "b"]]
  ∧ (λ ir, get ir.2 "ordem") <$> rows out = [SNull; SNull; SNull; SNull].
Proof. split_and!; by vm_compute. Qed.

(** ** Counting keys *)

Lemma count_key_app k ks1 ks2 :
  count_key k (ks1 ++ ks2) = count_key k ks1 + count_key k ks2.
Proof. unfold count_key. by rewrite filter_app, length_app. Qed.

Lemma count_key_cons k k' ks :
  count_key k (k' :: ks) = (if decide (k' = k) then 1 else 0) + count_key k ks.
Proof. unfold count_key. rewrite filter_cons. by case_decide. Qed.

Lemma count_key_pos k ks : 0 < count_key k ks ↔ k ∈ ks.
Proof.
  induction ks as [|k' ks IH]; [rewrite elem_of_nil; unfold count_key; simpl; lia|].
  rewrite count_key_cons, elem_of_cons. case_decide; [|naive_solver lia].
  subst. split; [auto | lia].
Qed.

Lemma count_key_Permutation k ks1 ks2 :
  ks1 ≡ₚ ks2 → count_key k ks1 = count_key k ks2.
Proof. intros Hp. unfold count_key. by rewrite Hp. Qed.

(** A key occurs twice exactly when it occurs at another position. *)
Lemma count_key_ge_2 ks p k :
  ks !! p = Some k →
  2 ≤ count_key k ks ↔ ∃ q, q ≠ p ∧ ks !! q = Some k.
Proof.
  intros Hp. rewrite <-(take_drop_middle ks p k Hp) at 1.
  rewrite count_key_app, count_key_cons, decide_True by done.
  trans (k ∈ take p ks ∨ k ∈ drop (S p) ks).
  { rewrite <-!count_key_pos. lia. }
  rewrite elem_of_take, list_elem_of_lookup. setoid_rewrite lookup_drop. split.
  - intros [(q & ? & ?)|(q & ?)]; [exists q | exists (S p + q)]; split; auto; lia.
  - intros (q & Hq & ?). destruct (decide (q < p)); [left; eauto|].
    right. exists (q - S p). by replace (S p + (q - S p)) with q by lia.
Qed.

Lemma NoDup_fst_unique {A B} (l : list (A * B)) i a b :
  NoDup l.*1 → (i, a) ∈ l → (i, b) ∈ l → a = b.
Proof.
  intros Hnd [p Hp]%list_elem_of_lookup [q Hq]%list_elem_of_lookup.
  assert (p = q) as ->.
  { apply (NoDup_lookup _ _ _ i Hnd); rewrite list_lookup_fmap; [by rewrite Hp|by rewrite Hq]. }
  congruence.
Qed.

(** ** Which rows are returned *)

Section returned_rows.
Context `{!PandasLaws P}.
Implicit Types (df : DataFrame) (keys : list string).

Lemma get_insert_ne (r : Row) c c' v : c ≠ c' → get (<[c := v]> r) c' = get r c'.
Proof. intros ?. unfold get. by rewrite lookup_insert_ne. Qed.

Lemma get_insert_eq (r : Row) c v : get (<[c := v]> r) c = v.
Proof. unfold get. by rewrite lookup_insert_eq. Qed.

(** With valid keys the result is either the empty selection or the
    annotated frame; its labels are those of the duplicates. *)
Lemma compute_duplicates_labels df keys :
  keys ≠ [] → Forall (λ c, c ∈ columns df) keys →
  ∃ out summary,
    compute_duplicates df keys = Ok (out, summary)
    ∧ labels out ≡ₚ (filter (is_duplicate keys df) (rows df)).*1
    ∧ (filter (is_duplicate keys df) (rows df) = [] → rows out = [] ∧ summary = [])
    ∧ (∀ ir, ir ∈ rows out →
         ∃ r, (ir.1, r) ∈ rows df ∧ ∀ c, c ≠ "ordem" → get ir.2 c = get r c).
Proof.
  intros Hk Hall.
  assert (columns df ≠ []) as Hcols.
  { destruct keys as [|k keys]; [done|]. apply Forall_cons in Hall as [Hin _].
    intros Heq. rewrite Heq in Hin. by apply elem_of_nil in Hin. }
  destruct (is_empty df) eqn:He.
  { apply is_empty_true in He as [?|Hr]; [done|].
    exists df, []. unfold compute_duplicates, labels.
    assert (is_empty df = true) as -> by (apply is_empty_true; auto).
    rewrite Hr. split_and!; try done. intros ir Hir. by apply elem_of_nil in Hir. }
  rewrite compute_duplicates_valid by done.
  destruct (is_empty (duplicate_frame keys df)) eqn:Hd.
  - apply is_empty_true in Hd as [?|Hd]; [done|]. simpl in Hd.
    eexists _, _. split; [done|]. unfold labels. simpl. rewrite Hd.
    split_and!; try done. intros ir Hir. by apply elem_of_nil in Hir.
  - apply is_empty_false in Hd as [_ Hd]. simpl in Hd.
    eexists _, _. split; [done|]. split_and!.
    + rewrite annotated_labels. unfold labels.
      by rewrite sorted_frame_Permutation.
    + done.
    + intros ir [p Hp]%list_elem_of_lookup.
      apply annotated_lookup in Hp as (r & v & Hr & _ & ->).
      exists r. split.
      * apply list_elem_of_lookup_2 in Hr.
        rewrite sorted_frame_Permutation in Hr.
        by apply list_elem_of_filter in Hr as [_ ?].
      * intros c ?. by apply get_insert_ne.
Qed.
End returned_rows.



(** ** The query text *)

Lemma lstrip_app_space pre x :
  Forall (λ c, isspace c = true) pre → lstrip (pre ++ x) = lstrip x.
Proof. induction 1 as [|c pre Hc _ IH]; simpl; [done|]. by rewrite Hc. Qed.

Lemma lstrip_all_space l : Forall (λ c, isspace c = true) l → lstrip l = [].
Proof.
  intros Hl. rewrite <-(app_nil_r l). by rewrite lstrip_app_space.
Qed.

Lemma lstrip_head x : (∀ c, head x = Some c → isspace c = false) → lstrip x = x.
Proof. destruct x as [|c x]; simpl; [done|]. intros Hc. by rewrite (Hc c eq_refl). Qed.

Lemma strip_trimmed s t : trimmed s t → strip s = t.
Proof.
  intros (pre & post & -> & Hpre & Hpost & Hhead & Hlast).
  unfold strip, rstrip. rewrite lstrip_app_space by done.
  destruct t as [|c t].
  - simpl. rewrite (lstrip_all_space post) by done. reflexivity.
  - rewrite (lstrip_head ((c :: t) ++ post)) by (intros c'; apply Hhead).
    rewrite reverse_app, (lstrip_app_space (reverse post)) by by apply Forall_reverse.
    rewrite (lstrip_head (reverse (c :: t))); [apply reverse_involutive|].
    intros c'. rewrite head_reverse. apply Hlast.
Qed.

Lemma lower_char_small c p :
  small_letter p → (lower_char c =? p)%N = true ↔ same_letter c p.
Proof.
  unfold small_letter, same_letter, lower_char. intros [??].
  rewrite N.eqb_eq.
  destruct (N.leb_spec 65 c), (N.leb_spec c 90); simpl; lia.
Qed.

Lemma startswith_lower word t :
  Forall small_letter word →
  startswith (lower t) word = true ↔ begins_with word t.
Proof.
  intros Hw. revert t. induction Hw as [|p word Hp _ IH]; intros t.
  - unfold begins_with. destruct t; simpl; (split; [|done]); intros _;
      eexists [], _; by split; [|constructor].
  - destruct t as [|c t]; simpl.
    + split; [done|]. intros (h & rest & Ht & Hh).
      apply Forall2_cons_inv_r in Hh as (c' & h' & _ & _ & ->). done.
    + rewrite andb_true_iff, lower_char_small, IH by done. split.
      * intros [Hc (h & rest & -> & Hh)]. exists (c :: h), rest.
        split; [done|]. by constructor.
      * intros (h & rest & Ht & Hh).
        apply Forall2_cons_inv_r in Hh as (c' & h' & ? & ? & ->). simplify_eq/=.
        split; [done|]. by exists h', rest.
Qed.

Lemma small_letters_select : Forall small_letter (lit "select").
Proof. repeat constructor; vm_compute; discriminate. Qed.

Lemma small_letters_with : Forall small_letter (lit "with").
Proof. repeat constructor; vm_compute; discriminate. Qed.

(** C9.  With [t] the trimmed input: an empty [t] raises; a [t] that
    begins with [select] or [with], in any case of the letters, is the
    query; any other [t] is taken as a table name. *)
Theorem query_from_input (source t : pystr) :
  trimmed source t →
  (t = [] → ∃ message, build_query_from_input source = Raise (ValueError message))
  ∧ (t ≠ [] → begins_with (lit "select") t ∨ begins_with (lit "with") t →
     build_query_from_input source = Ok t)
  ∧ (t ≠ [] → ¬ begins_with (lit "select") t → ¬ begins_with (lit "with") t →
     build_query_from_input source = Ok (lit "SELECT * FROM " ++ t)).
Proof.
  intros Ht. unfold build_query_from_input. rewrite (strip_trimmed _ _ Ht).
  split_and!.
  - intros ->. rewrite bool_decide_true by done. eauto.
  - intros Hne Hb. rewrite bool_decide_false by done.
    rewrite <-(startswith_lower _ _ small_letters_select),
            <-(startswith_lower _ _ small_letters_with) in Hb.
    apply orb_true_iff in Hb. by rewrite Hb.
  - intros Hne Hs Hw. rewrite bool_decide_false by done.
    rewrite <-(startswith_lower _ _ small_letters_select) in Hs.
    rewrite <-(startswith_lower _ _ small_letters_with) in Hw.
    apply not_true_is_false in Hs, Hw. by rewrite Hs, Hw.
Qed.

Lemma query_from_input_witness :
  trimmed (lit "  flights ") (lit "flights")
  ∧ lit "flights" ≠ []
  ∧ ¬ begins_with (lit "select") (lit "flights")
  ∧ ¬ begins_with (lit "with") (lit "flights")
  ∧ build_query_from_input (lit "  flights ") = Ok (lit "SELECT * FROM flights").
Proof.
  assert (trimmed (lit "  flights ") (lit "flights")) as Ht.
  { exists (lit "  "), (lit " "). split_and!.
    - reflexivity.
    - by_compute.
    - by_compute.
    - intros c [= <-]. reflexivity.
    - intros c [= <-]. reflexivity. }
  assert (lit "flights" ≠ []) as Hne by discriminate.
  assert (¬ begins_with (lit "select") (lit "flights")) as Hs.
  { rewrite <-(startswith_lower _ _ small_letters_select). by vm_compute. }
  assert (¬ begins_with (lit "with") (lit "flights")) as Hw.
  { rewrite <-(startswith_lower _ _ small_letters_with). by vm_compute. }
  do 4 (split; [assumption|]).
  destruct (query_from_input _ _ Ht) as (_ & _ & H3).
  exact (H3 Hne Hs Hw).
Defined.

(** ** The order of the returned rows and the ordinals *)

Section order.
Context `{!PandasLaws P}.
Implicit Types (df : DataFrame) (keys : list string).

Lemma row_key_singleton k ir : row_key [k] ir = [get ir.2 k].
Proof. done. Qed.

Lemma sort_values_Sorted keys df :
  keys ≠ [] → Sorted key_le (row_key keys <$> rows (sort_values keys df)).
Proof.
  intros Hk. destruct keys as [|k1 [|k2 keys]]; [done| |].
  - pose proof (take_rows_nargsort_Sorted (λ ir : nat * Row, get ir.2 k1) (rows df))
      as Hs.
    apply (Sorted_fmap (λ v, [v]) scalar_le key_le) in Hs.
    + by rewrite <-list_fmap_compose in Hs.
    + intros x y. apply key_le_singleton.
  - rewrite sort_values_cons_cons. apply Sorted_fmap with (R1 := by_key (row_key (k1 :: k2 :: keys))); [done|].
    apply stable_sort_Sorted.
Qed.

Lemma cumcount_lookup keys df p ir :
  rows df !! p = Some ir →
  cumcount keys df !! p
  = Some (if has_null (row_key keys ir) then SNull
          else SInt (Z.of_nat (count_key (row_key keys ir)
                                 (row_key keys <$> take p (rows df))))).
Proof.
  intros Hp. unfold cumcount.
  by rewrite list_lookup_imap, list_lookup_fmap, Hp, fmap_take.
Qed.

(** The ordinal of the row at position [p] of the sorted duplicates:
    one more than the number of rows of its key before it. *)
Lemma annotated_ordinal keys df p ir :
  rows (sorted_frame keys df) !! p = Some ir →
  has_null (row_key keys ir) = false →
  rows (annotated_frame keys df) !! p
  = Some (ir.1, <["ordem" :=
                  SInt (Z.of_nat (S (count_key (row_key keys ir)
                     (row_key keys <$> take p (rows (sorted_frame keys df))))))]>
                ir.2).
Proof.
  intros Hp Hnn. apply annotated_lookup.
  exists ir.2, (SInt (Z.of_nat (S (count_key (row_key keys ir)
            (row_key keys <$> take p (rows (sorted_frame keys df))))))).
  simpl. split; [by destruct ir|]. split; [|done].
  unfold ordem. rewrite list_lookup_fmap, (cumcount_lookup _ _ _ _ Hp), Hnn.
  simpl. do 2 f_equal. lia.
Qed.
End order.





(** ** The summary does not depend on the order of the rows *)

Lemma filter_ext_elem {A} (Q1 Q2 : A → Prop) `{∀ x, Decision (Q1 x), ∀ x, Decision (Q2 x)}
    (l : list A) :
  (∀ x, x ∈ l → Q1 x ↔ Q2 x) → filter Q1 l = filter Q2 l.
Proof.
  induction l as [|x l IH]; intros Hq; [done|].
  rewrite !filter_cons, IH by (intros y Hy; apply Hq; by right).
  pose proof (Hq x (proj2 (elem_of_cons l x x) (or_introl eq_refl))).
  repeat case_decide; naive_solver.
Qed.

Lemma filter_snd {A B} (Q : B → Prop) `{∀ x, Decision (Q x)} (l : list (A * B)) :
  (filter (λ ab, Q ab.2) l).*2 = filter Q l.*2.
Proof.
  induction l as [|[a b] l IH]; [done|].
  rewrite fmap_cons, !filter_cons. simpl. case_decide; csimpl; by rewrite IH.
Qed.

Lemma remove_dups_Permutation {A} `{EqDecision A} (l l' : list A) :
  l ≡ₚ l' → remove_dups l ≡ₚ remove_dups l'.
Proof.
  intros Hp. apply NoDup_Permutation; [apply NoDup_remove_dups..|].
  intros x. by rewrite !elem_of_remove_dups, Hp.
Qed.

Lemma nunique_Permutation values values' :
  values ≡ₚ values' → nunique values = nunique values'.
Proof.
  intros Hp. unfold nunique. apply Permutation_length, remove_dups_Permutation.
  by rewrite Hp.
Qed.

#[global] Instance key_lt_trans : Transitive key_lt.
Proof. apply (cmp_lt_trans key_compare). Qed.

Lemma key_lt_irrefl k : ¬ key_lt k k.
Proof. apply (cmp_lt_irrefl key_compare). Qed.

Lemma insert_uniq_HdRel a k l :
  key_lt a k → HdRel key_lt a l → HdRel key_lt a (insert_uniq k l).
Proof.
  intros Hak Hal. destruct l as [|y l]; simpl; [by constructor|].
  destruct (key_compare k y); [done|by constructor|].
  constructor. by inversion Hal.
Qed.

Lemma insert_uniq_Sorted k l : Sorted key_lt l → Sorted key_lt (insert_uniq k l).
Proof.
  induction 1 as [|y l Hl IH Hy]; simpl; [by repeat constructor|].
  destruct (key_compare k y) eqn:Hc.
  - by constructor.
  - by repeat constructor.
  - constructor; [done|]. apply insert_uniq_HdRel; [|done].
    by apply (compare_gt_lt key_compare).
Qed.

Lemma sorted_group_keys_Sorted ks : Sorted key_lt (sorted_group_keys ks).
Proof.
  unfold sorted_group_keys. induction (filter _ ks) as [|k l IH]; simpl; [constructor|].
  by apply insert_uniq_Sorted.
Qed.

Lemma Sorted_key_lt_NoDup l : Sorted key_lt l → NoDup l.
Proof.
  intros Hs. apply (Sorted_StronglySorted key_lt) in Hs.
  induction Hs as [|x l _ IH Hx]; constructor; [|done].
  intros Hin. rewrite Forall_forall in Hx.
  by apply (key_lt_irrefl x), Hx.
Qed.

Lemma sorted_group_keys_Permutation ks ks' :
  ks ≡ₚ ks' → sorted_group_keys ks = sorted_group_keys ks'.
Proof.
  intros Hp. apply (Sorted_unique_strong key_lt).
  - intros x y _ _ Hxy Hyx. exfalso. apply (key_lt_irrefl x).
    by trans y.
  - apply sorted_group_keys_Sorted.
  - apply sorted_group_keys_Sorted.
  - apply NoDup_Permutation; [apply Sorted_key_lt_NoDup, sorted_group_keys_Sorted..|].
    intros k. by rewrite !elem_of_sorted_group_keys, Hp.
Qed.

Section summary.
Context (keys non_key_columns : list string).

Lemma summary_from_Permutation rs rs' :
  rs ≡ₚ rs' → summary_from keys non_key_columns rs = summary_from keys non_key_columns rs'.
Proof.
  intros Hp. unfold summary_from.
  rewrite (sorted_group_keys_Permutation (project keys <$> rs) (project keys <$> rs'))
    by by rewrite Hp.
  apply list_fmap_ext. intros _ k _. unfold group_record.
  assert (filter (λ r, project keys r = k) rs ≡ₚ filter (λ r, project keys r = k) rs')
    as Hg by by rewrite Hp.
  f_equal.
  - by rewrite Hg.
  - apply filter_ext_elem. intros col _.
    by rewrite (nunique_Permutation _
                  ((λ r, get r col) <$> filter (λ r, project keys r = k) rs'))
      by by rewrite Hg.
Qed.

Lemma project_agree r r' :
  agree_on (keys ++ non_key_columns) r r' → project keys r = project keys r'.
Proof.
  intros Ha. unfold project. apply list_fmap_ext. intros _ c Hc%list_elem_of_lookup_2.
  apply Ha, elem_of_app. by left.
Qed.

Lemma summary_from_agree rs rs' :
  Forall2 (agree_on (keys ++ non_key_columns)) rs rs' →
  summary_from keys non_key_columns rs = summary_from keys non_key_columns rs'.
Proof.
  intros Ha. unfold summary_from.
  assert (project keys <$> rs = project keys <$> rs') as ->.
  { apply list_eq_Forall2, Forall2_fmap.
    eapply Forall2_impl; [done|]. apply project_agree. }
  apply list_fmap_ext. intros _ k _. unfold group_record.
  assert (Forall2 (agree_on (keys ++ non_key_columns))
            (filter (λ r, project keys r = k) rs)
            (filter (λ r, project keys r = k) rs')) as Hg.
  { apply Forall2_filter; [|done]. intros r r' Hr. by rewrite (project_agree r r'). }
  f_equal.
  - by apply Forall2_length in Hg.
  - apply filter_ext_elem. intros col Hcol.
    assert ((λ r, get r col) <$> filter (λ r, project keys r = k) rs
            = (λ r, get r col) <$> filter (λ r, project keys r = k) rs') as ->; [|done].
    apply list_eq_Forall2, Forall2_fmap.
    eapply Forall2_impl; [done|]. intros r r' Hr. apply Hr, elem_of_app. by right.
Qed.
End summary.

Lemma summary_groupby `{Pandas} keys non_key_columns df :
  summarise non_key_columns <$> groupby keys df
  = summary_from keys non_key_columns (rows df).*2.
Proof.
  unfold groupby, summary_from. rewrite <-!list_fmap_compose.
  apply list_fmap_ext. intros _ k _. unfold summarise, group_record. simpl.
  rewrite as_tuple_yield_key, <-(filter_snd (λ r, project keys r = k)).
  f_equal.
  - by rewrite length_fmap.
  - apply filter_ext_elem. intros col _. by rewrite <-list_fmap_compose.
Qed.

Lemma duplicate_frame_cells keys df :
  (rows (duplicate_frame keys df)).*2 = duplicate_cells keys (rows df).*2.
Proof.
  unfold duplicate_frame, duplicate_cells. simpl.
  rewrite <-(filter_snd (λ r, 2 ≤ count_key (project keys r)
                                  (project keys <$> (rows df).*2))).
  f_equal. apply list_filter_iff. intros ir.
  unfold is_duplicate. by rewrite <-list_fmap_compose.
Qed.

Lemma duplicate_cells_Permutation keys rs rs' :
  rs ≡ₚ rs' → duplicate_cells keys rs ≡ₚ duplicate_cells keys rs'.
Proof.
  intros Hp. unfold duplicate_cells.
  etrans; [apply (filter_Permutation _ _ _ Hp)|].
  erewrite list_filter_iff; [done|]. intros r. simpl.
  by rewrite (count_key_Permutation _ (project keys <$> rs) (project keys <$> rs'))
    by by rewrite Hp.
Qed.

Lemma is_empty_Permutation df df' :
  columns df = columns df' → (rows df).*2 ≡ₚ (rows df').*2 →
  is_empty df = is_empty df'.
Proof.
  intros Hc Hp. apply Permutation_length in Hp. rewrite !length_fmap in Hp.
  unfold is_empty. apply bool_decide_ext. rewrite Hc.
  destruct (rows df), (rows df'); simpl in *; naive_solver.
Qed.

Section permuted.
Context `{!PandasLaws P}.

Lemma annotated_agree cols keys df :
  "ordem" ∉ cols →
  Forall2 (agree_on cols) (rows (annotated_frame keys df)).*2
                          (rows (sorted_frame keys df)).*2.
Proof.
  intros Hcols. apply Forall2_fmap, Forall2_same_length_lookup_2.
  - pose proof (annotated_labels keys df) as Hl. unfold labels in Hl.
    by rewrite <-(length_fmap fst), Hl, length_fmap.
  - intros p a s Ha Hs. apply annotated_lookup in Ha as (r & v & Hr & _ & Ha).
    rewrite Hs in Hr. injection Hr as ->. rewrite Ha. simpl.
    intros c Hc. apply get_insert_ne. by intros <-.
Qed.

(** The summary of a table with duplicates, read off its cells. *)
Lemma summary_cells keys df :
  "ordem" ∉ columns df → Forall (λ c, c ∈ columns df) keys →
  summarise (filter (λ col, col ∉ keys) (columns df))
    <$> groupby keys (annotated_frame keys df)
  = summary_from keys (filter (λ col, col ∉ keys) (columns df))
      (duplicate_cells keys (rows df).*2).
Proof.
  intros Ho Hall. rewrite summary_groupby.
  rewrite (summary_from_agree _ _ _ (rows (sorted_frame keys df)).*2).
  - apply summary_from_Permutation.
    by rewrite sorted_frame_Permutation, <-duplicate_frame_cells.
  - apply annotated_agree. rewrite elem_of_app, list_elem_of_filter.
    rewrite Forall_forall in Hall. naive_solver.
Qed.
End permuted.



(** * Further properties of the code *)

(** ** [build_query_from_input] *)

Lemma lstrip_split s :
  ∃ pre, s = pre ++ lstrip s
         ∧ Forall (λ c, isspace c = true) pre
         ∧ ∀ c, head (lstrip s) = Some c → isspace c = false.
Proof.
  induction s as [|c s (pre & Hs & Hpre & Hhead)]; simpl.
  - exists []. by split_and!.
  - destruct (isspace c) eqn:Hc.
    + exists (c :: pre). split_and!; [by rewrite Hs at 1|by constructor|done].
    + exists []. split_and!; [done|constructor|].
      intros c' [= <-]. done.
Qed.

Lemma rstrip_split s :
  ∃ post, s = rstrip s ++ post
          ∧ Forall (λ c, isspace c = true) post
          ∧ ∀ c, last (rstrip s) = Some c → isspace c = false.
Proof.
  unfold rstrip. destruct (lstrip_split (reverse s)) as (pre & Hs & Hpre & Hhead).
  exists (reverse pre). split_and!.
  - by rewrite <-reverse_app, <-Hs, reverse_involutive.
  - by apply Forall_reverse.
  - intros c. rewrite last_reverse. apply Hhead.
Qed.

Lemma strip_split (s : pystr) : trimmed s (strip s).
Proof.
  unfold strip.
  destruct (lstrip_split s) as (pre & Hs & Hpre & Hhead).
  destruct (rstrip_split (lstrip s)) as (post & Hl & Hpost & Hlast).
  exists pre, post. split_and!; try done.
  - by rewrite <-Hl.
  - intros c Hc. apply Hhead. rewrite Hl.
    destruct (rstrip (lstrip s)); [done|]. exact Hc.
Qed.

(** [strip] removes the white space at the two ends of its argument,
    all of it and nothing else; what it returns is the only text that
    is the argument trimmed. *)
Theorem strip_is_trimmed (s t : pystr) : trimmed s t ↔ t = strip s.
Proof.
  split; [intros Ht; symmetry; by apply strip_trimmed|].
  intros ->. apply strip_split.
Qed.

Lemma strip_nil_iff s : strip s = [] ↔ Forall (λ c, isspace c = true) s.
Proof.
  split.
  - intros Hnil. destruct (strip_split s) as (pre & post & Hs & ? & ? & _).
    rewrite Hnil in Hs. rewrite Hs. simpl. by apply Forall_app.
  - intros Hs. apply strip_trimmed. exists s, []. split_and!; try done.
    by rewrite app_nil_r.
Qed.

(** The query builder fails on blank input and on nothing else. *)
Theorem build_query_fails_iff_blank (source : pystr) :
  (∃ e, build_query_from_input source = Raise e)
  ↔ Forall (λ c, isspace c = true) source.
Proof.
  rewrite <-strip_nil_iff. unfold build_query_from_input.
  case_bool_decide as Hs; [naive_solver|].
  split; [|done]. intros [e He].
  by destruct (startswith _ _ || startswith _ _).
Qed.

Lemma strip_idemp s : strip (strip s) = strip s.
Proof.
  apply strip_trimmed. destruct (strip_split s) as (_ & _ & _ & _ & _ & ? & ?).
  exists [], []. split_and!; try done. by rewrite app_nil_r.
Qed.

(** White space around the input does not change the outcome. *)
Theorem build_query_ignores_outer_space (before source after : pystr) :
  Forall (λ c, isspace c = true) before →
  Forall (λ c, isspace c = true) after →
  build_query_from_input (before ++ source ++ after) = build_query_from_input source.
Proof.
  intros Hb Ha.
  assert (strip (before ++ source ++ after) = strip source) as Hs.
  { apply strip_trimmed.
    destruct (strip_split source) as (pre & post & Hs & ? & ? & ? & ?).
    exists (before ++ pre), (post ++ after).
    split_and!; try done; [|by apply Forall_app..].
    rewrite Hs at 1. by rewrite <-!app_assoc. }
  unfold build_query_from_input. by rewrite Hs.
Qed.

Lemma build_query_ignores_outer_space_witness :
  Forall (λ c, isspace c = true) (lit "  ")
  ∧ Forall (λ c, isspace c = true) (lit " ")
  ∧ build_query_from_input (lit "  " ++ lit "flights" ++ lit " ")
    = build_query_from_input (lit "flights").
Proof.
  assert (Forall (λ c, isspace c = true) (lit "  ")) as Hb by by_compute.
  assert (Forall (λ c, isspace c = true) (lit " ")) as Ha by by_compute.
  do 2 (split; [assumption|]).
  exact (build_query_ignores_outer_space _ (lit "flights") _ Hb Ha).
Defined.

(** Every query that is built begins with [select] or [with], in some
    case of the letters, has no white space at its ends, and is built
    into itself again. *)
Theorem build_query_gives_query (source q : pystr) :
  build_query_from_input source = Ok q →
  (begins_with (lit "select") q ∨ begins_with (lit "with") q)
  ∧ trimmed q q
  ∧ build_query_from_input q = Ok q.
Proof.
  intros Hb.
  assert (strip source ≠ [] ∧
          (q = strip source
             ∧ startswith (lower q) (lit "select") || startswith (lower q) (lit "with") = true
           ∨ q = lit "SELECT * FROM " ++ strip source)) as [Hne Hq].
  { unfold build_query_from_input in Hb. case_bool_decide as Hs; [done|].
    split; [done|].
    destruct (startswith _ _ || startswith _ _) eqn:Hsw; simplify_eq; auto. }
  destruct (strip_split source) as (_ & _ & _ & _ & _ & Hhead & Hlast).
  assert (trimmed q q ∧
          startswith (lower q) (lit "select") || startswith (lower q) (lit "with") = true)
    as [Ht Hsw].
  { destruct Hq as [[-> Hsw]| ->].
    - split; [|done]. exists [], []. split_and!; try done. by rewrite app_nil_r.
    - split; [|done]. exists [], []. split_and!; try done.
      + by rewrite app_nil_r.
      + intros c [= <-]. done.
      + intros c. destruct (strip source) as [|c0 cs] eqn:Hs using rev_ind; [done|].
        rewrite app_assoc, !last_snoc. rewrite last_snoc in Hlast. apply Hlast. }
  split_and!; [|done|].
  - apply orb_true_iff in Hsw as [Hsw|Hsw]; [left|right].
    + by apply (startswith_lower _ _ small_letters_select).
    + by apply (startswith_lower _ _ small_letters_with).
  - unfold build_query_from_input. rewrite (strip_trimmed _ _ Ht).
    rewrite bool_decide_false; [by rewrite Hsw|].
    destruct Hq as [[-> _]| ->]; [done|]. done.
Qed.

Lemma build_query_gives_query_witness :
  build_query_from_input (lit "  flights ") = Ok (lit "SELECT * FROM flights")
  ∧ (begins_with (lit "select") (lit "SELECT * FROM flights")
     ∨ begins_with (lit "with") (lit "SELECT * FROM flights"))
  ∧ trimmed (lit "SELECT * FROM flights") (lit "SELECT * FROM flights")
  ∧ build_query_from_input (lit "SELECT * FROM flights") = Ok (lit "SELECT * FROM flights").
Proof.
  assert (build_query_from_input (lit "  flights ") = Ok (lit "SELECT * FROM flights"))
    as Hb by reflexivity.
  split; [exact Hb|]. exact (build_query_gives_query _ _ Hb).
Defined.

(** ** [compute_duplicates]: the returned frame *)

Lemma filter_fmap {A B} (f : A → B) (Q : B → Prop) `{∀ y, Decision (Q y)} (l : list A) :
  filter Q (f <$> l) = f <$> filter (λ x, Q (f x)) l.
Proof.
  induction l as [|x l IH]; [done|].
  rewrite fmap_cons, !filter_cons, IH. by case_decide.
Qed.

Lemma count_key_fmap {A} (f : A → list Scalar) k (l : list A) :
  count_key k (f <$> l) = length (filter (λ x, f x = k) l).
Proof. unfold count_key. by rewrite filter_fmap, length_fmap. Qed.

Lemma valid_keys_columns df keys :
  keys ≠ [] → Forall (λ c, c ∈ columns df) keys → columns df ≠ [].
Proof.
  intros Hk Hall Heq. destruct keys as [|k keys]; [done|].
  apply Forall_cons in Hall as [Hin _]. rewrite Heq in Hin.
  by apply elem_of_nil in Hin.
Qed.



Lemma annotated_columns `{Pandas} keys df :
  columns (annotated_frame keys df)
  = "ordem" :: filter (λ col, col ≠ "ordem") (columns df).
Proof.
  unfold annotated_frame, getitem, setitem, sorted_frame. simpl.
  rewrite sort_values_columns. simpl. f_equal.
  case_bool_decide; [done|]. rewrite filter_app, filter_cons_False, filter_nil by naive_solver.
  by rewrite app_nil_r.
Qed.

(** The frame that is returned has rows exactly when it has the column
    [ordem]: without duplicates it keeps the columns of the table and
    the summary is empty; with duplicates [ordem] comes first, once,
    followed by the columns of the table in their order (a column of
    the table that is itself named [ordem] is the one overwritten). *)
Theorem ordinal_column_comes_first `{!PandasLaws P} (df : DataFrame) (keys : list string)
    (out : DataFrame) (summary : list DifferenceRecord) :
  compute_duplicates df keys = Ok (out, summary) →
  columns df ≠ [] →
  (rows out = [] ∧ columns out = columns df ∧ summary = [])
  ∨ (rows out ≠ []
     ∧ columns out = "ordem" :: filter (λ col, col ≠ "ordem") (columns df)).
Proof.
  intros Hc Hcols.
  apply compute_duplicates_inv in Hc
    as [(He & -> & ->)|(_ & _ & _ & [(He & -> & ->)|(He & -> & ->)])].
  - left. apply is_empty_true in He as [?|?]; done.
  - left. apply is_empty_true in He as [?|?]; done.
  - right. split; [|apply annotated_columns].
    apply is_empty_false in He as [_ He]. simpl in He.
    intros Hnil. apply He, Permutation_nil_r.
    rewrite <-sorted_frame_Permutation.
    pose proof (annotated_labels keys df) as Hl. unfold labels in Hl.
    rewrite Hnil in Hl. symmetry in Hl. apply fmap_nil_inv in Hl. by rewrite Hl.
Qed.

Lemma ordinal_column_comes_first_witness :
  let out := frame_of (compute_duplicates scenario scenario_keys) in
  PandasLaws stable_pandas
  ∧ compute_duplicates scenario scenario_keys = Ok (out, [scenario_record])
  ∧ columns scenario ≠ []
  ∧ ((rows out = [] ∧ columns out = columns scenario ∧ [scenario_record] = [])
     ∨ (rows out ≠ []
        ∧ columns out = "ordem" :: filter (λ col, col ≠ "ordem") (columns scenario))).
Proof.
  intros out.
  assert (compute_duplicates scenario scenario_keys = Ok (out, [scenario_record]))
    as Hc by (vm_compute; reflexivity).
  assert (columns scenario ≠ []) as Hcols by discriminate.
  split; [exact stable_pandas_laws|]. do 2 (split; [assumption|]).
  exact (@ordinal_column_comes_first stable_pandas stable_pandas_laws _ _ _ _ Hc Hcols).
Defined.

(** ** [compute_duplicates]: the ordinals *)

Lemma prefix_counts_snoc ks k :
  prefix_counts (ks ++ [k]) = prefix_counts ks ++ [count_key k ks].
Proof.
  unfold prefix_counts. rewrite imap_app. simpl. f_equal.
  - apply imap_ext. intros i x Hi. apply lookup_lt_Some in Hi.
    by rewrite take_app_le by lia.
  - by rewrite Nat.add_0_r, take_app_length.
Qed.

Lemma length_prefix_counts ks : length (prefix_counts ks) = length ks.
Proof. apply length_imap. Qed.

(** Read along one key, the counts of earlier occurrences are 0, 1, 2
    and so on. *)
Lemma group_prefix_counts k ks :
  (filter (λ kc, kc.1 = k) (zip ks (prefix_counts ks))).*2 = seq 0 (count_key k ks).
Proof.
  induction ks as [|k' ks IH] using rev_ind; [done|].
  rewrite prefix_counts_snoc, zip_with_app by by rewrite length_prefix_counts.
  rewrite filter_app, fmap_app, IH, count_key_app, count_key_cons.
  change (zip [k'] [count_key k' ks]) with [(k', count_key k' ks)].
  rewrite filter_cons, filter_nil. simpl. case_decide; simpl.
  - subst. by rewrite seq_app.
  - by rewrite Nat.add_0_r, app_nil_r.
Qed.

Lemma zip_fmap_zip {A B C} (g : A * B → C) (l : list A) (k : list B) :
  zip l (g <$> zip l k) = (λ ab, (ab.1, g ab)) <$> zip l k.
Proof.
  revert k. induction l as [|a l IH]; intros [|b k]; simpl; [done..|].
  by rewrite IH.
Qed.

Lemma cumcount_prefix_counts keys df :
  cumcount keys df
  = (λ kc, if has_null kc.1 then SNull else SInt (Z.of_nat kc.2))
      <$> zip (row_key keys <$> rows df) (prefix_counts (row_key keys <$> rows df)).
Proof.
  unfold cumcount, prefix_counts. apply list_eq. intros i.
  rewrite list_lookup_fmap, lookup_zip_with, !list_lookup_imap.
  by destruct (_ !! i).
Qed.

Lemma row_key_insert_ne keys c v (ir : nat * Row) :
  c ∉ keys → row_key keys (ir.1, <[c := v]> ir.2) = row_key keys ir.
Proof.
  intros Hc. unfold row_key, project. simpl. apply list_fmap_ext.
  intros _ k Hk%list_elem_of_lookup_2. apply get_insert_ne. by intros ->.
Qed.

Section ordinals.
Context `{!PandasLaws P}.

(** The key and the ordinal of each returned row. *)
Lemma annotated_keys_ordinals keys df :
  "ordem" ∉ keys →
  (λ ir, (row_key keys ir, get ir.2 "ordem")) <$> rows (annotated_frame keys df)
  = zip (row_key keys <$> rows (sorted_frame keys df)) (ordem keys df).
Proof.
  intros Ho. rewrite annotated_rows. apply list_eq. intros i.
  rewrite list_lookup_fmap, !lookup_zip_with, list_lookup_fmap.
  destruct (rows (sorted_frame keys df) !! i) as [ir|]; simpl; [|done].
  destruct (ordem keys df !! i) as [v|]; simpl; [|done].
  by rewrite row_key_insert_ne, get_insert_eq.
Qed.

Lemma annotated_keys keys df :
  "ordem" ∉ keys →
  row_key keys <$> rows (annotated_frame keys df)
  = row_key keys <$> rows (sorted_frame keys df).
Proof.
  intros Ho.
  trans (((λ ir, (row_key keys ir, get ir.2 "ordem"))
            <$> rows (annotated_frame keys df)).*1).
  { by rewrite <-list_fmap_compose. }
  rewrite annotated_keys_ordinals by done. apply fst_zip.
  by rewrite length_ordem, length_fmap.
Qed.

Lemma annotated_group_ordinals keys df k :
  "ordem" ∉ keys → has_null k = false →
  (λ ir, get ir.2 "ordem")
    <$> filter (λ ir, row_key keys ir = k) (rows (annotated_frame keys df))
  = (λ n, SInt (Z.of_nat n))
      <$> seq 1 (count_key k (row_key keys <$> rows (annotated_frame keys df))).
Proof.
  intros Ho Hk. rewrite annotated_keys by done.
  trans ((filter (λ kc, kc.1 = k)
            ((λ ir, (row_key keys ir, get ir.2 "ordem"))
               <$> rows (annotated_frame keys df))).*2).
  { by rewrite filter_fmap, <-list_fmap_compose. }
  rewrite annotated_keys_ordinals by done. unfold ordem.
  rewrite cumcount_prefix_counts, <-list_fmap_compose, zip_fmap_zip.
  rewrite filter_fmap, <-list_fmap_compose. simpl.
  rewrite <-fmap_S_seq, <-group_prefix_counts, <-!list_fmap_compose.
  apply list_fmap_ext. intros _ [k' n] [Hk' _]%list_elem_of_lookup_2%list_elem_of_filter.
  simpl in *. subst k'. rewrite Hk. simpl. f_equal. lia.
Qed.
End ordinals.



(** ** [compute_duplicates]: the summary *)

Lemma summary_from_nil keys nk : summary_from keys nk [] = [].
Proof. done. Qed.

Section summary_of_table.
Context `{!PandasLaws P}.

(** With valid keys and no column named [ordem], the summary is a
    function of the cells of the table. *)
Lemma summary_of_cells df keys :
  keys ≠ [] → Forall (λ c, c ∈ columns df) keys → "ordem" ∉ columns df →
  ∃ out,
    compute_duplicates df keys
    = Ok (out, summary_from keys (filter (λ col, col ∉ keys) (columns df))
                 (duplicate_cells keys (rows df).*2)).
Proof.
  intros Hk Hall Ho.
  pose proof (valid_keys_columns df keys Hk Hall) as Hcols.
  destruct (is_empty df) eqn:He.
  { exists df. unfold compute_duplicates. rewrite He.
    apply is_empty_true in He as [?|Hr]; [done|]. by rewrite Hr. }
  rewrite compute_duplicates_valid by done.
  destruct (is_empty (duplicate_frame keys df)) eqn:Hd.
  - eexists. f_equal. f_equal. rewrite <-duplicate_frame_cells.
    apply is_empty_true in Hd as [?|Hd]; [done|]. by rewrite Hd.
  - eexists. by rewrite summary_cells.
Qed.
End summary_of_table.

Lemma elem_of_duplicate_cells_keys keys rs k :
  k ∈ project keys <$> duplicate_cells keys rs
  ↔ 2 ≤ count_key k (project keys <$> rs).
Proof.
  unfold duplicate_cells. rewrite list_elem_of_fmap. split.
  - by intros (r & -> & [? _]%list_elem_of_filter).
  - intros Hc. assert (k ∈ project keys <$> rs) as Hin by (apply count_key_pos; lia).
    apply list_elem_of_fmap in Hin as (r & -> & Hr). exists r. split; [done|].
    by apply list_elem_of_filter.
Qed.

Lemma length_group_duplicate_cells keys rs k :
  2 ≤ count_key k (project keys <$> rs) →
  length (filter (λ r, project keys r = k) (duplicate_cells keys rs))
  = count_key k (project keys <$> rs).
Proof.
  intros Hc. unfold duplicate_cells. rewrite list_filter_filter, count_key_fmap.
  f_equal. apply list_filter_iff. intros r. split; [by intros [? _]|].
  intros Hr. split; [done|]. by rewrite Hr.
Qed.



(** The records come in ascending order of their keys, and no two
    records have the same key. *)
Theorem record_keys_ascend `{Pandas} (df : DataFrame) (keys : list string)
    (out : DataFrame) (summary : list DifferenceRecord) :
  compute_duplicates df keys = Ok (out, summary) →
  ∃ ks, key <$> summary = KTuple <$> ks ∧ Sorted key_lt ks ∧ NoDup ks.
Proof.
  intros Hc.
  apply compute_duplicates_inv in Hc
    as [(_ & _ & ->)|(_ & _ & _ & [(_ & _ & ->)|(_ & _ & ->)])];
    [by exists []; split_and!; constructor..|].
  exists (sorted_group_keys (row_key keys <$> rows (annotated_frame keys df))).
  split_and!.
  - unfold groupby. rewrite <-!list_fmap_compose. apply list_fmap_ext.
    intros _ k _. simpl. apply as_tuple_yield_key.
  - apply sorted_group_keys_Sorted.
  - apply Sorted_key_lt_NoDup, sorted_group_keys_Sorted.
Qed.

Lemma record_keys_ascend_witness :
  compute_duplicates scenario ["airline"]
  = Ok (frame_of (compute_duplicates scenario ["airline"]), [airline_record])
  ∧ ∃ ks, key <$> [airline_record] = KTuple <$> ks ∧ Sorted key_lt ks ∧ NoDup ks.
Proof.
  assert (compute_duplicates scenario ["airline"]
          = Ok (frame_of (compute_duplicates scenario ["airline"]), [airline_record]))
    as Hc by (vm_compute; reflexivity).
  split; [exact Hc|]. exact (record_keys_ascend _ _ _ _ Hc).
Defined.

(** The columns listed as differing are non-key columns of the table,
    in the order the table has them. *)
Theorem difference_columns_in_table_order `{Pandas} (df : DataFrame) (keys : list string)
    (out : DataFrame) (summary : list DifferenceRecord) (rec : DifferenceRecord) :
  compute_duplicates df keys = Ok (out, summary) →
  rec ∈ summary →
  difference_columns rec `sublist_of` columns df
  ∧ ∀ col, col ∈ difference_columns rec → col ∉ keys.
Proof.
  intros Hc Hrec.
  apply compute_duplicates_inv in Hc
    as [(_ & _ & ->)|(_ & _ & _ & [(_ & _ & ->)|(_ & _ & ->)])];
    [by apply elem_of_nil in Hrec..|].
  apply list_elem_of_fmap in Hrec as (g & -> & _). unfold summarise. simpl. split.
  - etrans; apply sublist_filter.
  - intros col [_ [? _]%list_elem_of_filter]%list_elem_of_filter. done.
Qed.

Lemma difference_columns_in_table_order_witness :
  compute_duplicates scenario scenario_keys
  = Ok (frame_of (compute_duplicates scenario scenario_keys), [scenario_record])
  ∧ scenario_record ∈ [scenario_record]
  ∧ difference_columns scenario_record `sublist_of` columns scenario
  ∧ ∀ col, col ∈ difference_columns scenario_record → col ∉ scenario_keys.
Proof.
  assert (compute_duplicates scenario scenario_keys
          = Ok (frame_of (compute_duplicates scenario scenario_keys), [scenario_record]))
    as Hc by (vm_compute; reflexivity).
  assert (scenario_record ∈ [scenario_record]) as Hrec by by_compute.
  do 2 (split; [assumption|]).
  exact (difference_columns_in_table_order _ _ _ _ _ Hc Hrec).
Defined.

Lemma sum_count_key (d l : list (list Scalar)) :
  NoDup d → (∀ k, k ∈ l → k ∈ d) →
  sum_list ((λ k, count_key k l) <$> d) = length l.
Proof.
  intros Hd. revert l. induction Hd as [|x d Hx Hd IH]; intros l Hl.
  - destruct l as [|k l]; [done|]. specialize (Hl k). rewrite elem_of_cons in Hl.
    exfalso. eapply elem_of_nil, Hl. by left.
  - rewrite fmap_cons. simpl.
    rewrite <-(Permutation_length (filter_app_complement (λ k', k' = x) l)), length_app.
    f_equal. rewrite <-(IH (filter (λ k', ¬ k' = x) l)).
    + f_equal. apply list_fmap_ext. intros _ k Hk%list_elem_of_lookup_2.
      unfold count_key. rewrite list_filter_filter. f_equal.
      apply list_filter_iff. intros k'. split; [|by intros [? _]].
      intros ->. split; [done|]. by intros ->.
    + intros k [Hne Hin]%list_elem_of_filter. apply Hl in Hin.
      apply elem_of_cons in Hin as [?|?]; done.
Qed.

Lemma sum_group_counts ks :
  sum_list ((λ k, count_key k ks) <$> sorted_group_keys ks)
  = length (filter (λ k, has_null k = false) ks).
Proof.
  rewrite <-(sum_count_key (sorted_group_keys ks) (filter (λ k, has_null k = false) ks)).
  - f_equal. apply list_fmap_ext. intros _ k Hk%list_elem_of_lookup_2.
    apply elem_of_sorted_group_keys in Hk as [_ Hk].
    unfold count_key. rewrite list_filter_filter. f_equal.
    apply list_filter_iff. intros k'. split; [|by intros [? _]].
    by intros ->.
  - apply Sorted_key_lt_NoDup, sorted_group_keys_Sorted.
  - intros k [? ?]%list_elem_of_filter. by apply elem_of_sorted_group_keys.
Qed.



(** ** The request handler *)

Lemma build_query_raises_ValueError source e :
  build_query_from_input source = Raise e → ∃ message, e = ValueError message.
Proof.
  unfold build_query_from_input. case_bool_decide; [intros [= <-]; eauto|].
  by destruct (startswith _ _ || startswith _ _).
Qed.

Lemma compute_duplicates_returns `{Pandas} df keys :
  keys ≠ [] → Forall (λ c, c ∈ columns df) keys →
  ∃ out summary,
    compute_duplicates df keys = Ok (out, summary)
    ∧ (is_empty out = true → summary = [])
    ∧ (is_empty out = false →
       columns out = "ordem" :: filter (λ col, col ≠ "ordem") (columns df)).
Proof.
  intros Hk Hall. destruct (is_empty df) eqn:He.
  { exists df, []. unfold compute_duplicates. rewrite He. split_and!; [done..|].
    intros He'. congruence. }
  rewrite compute_duplicates_valid by done.
  destruct (is_empty (duplicate_frame keys df)) eqn:Hd.
  - eexists _, _. split_and!; [done..|]. intros He'. congruence.
  - eexists _, _. split_and!; [done| |].
    + intros [He'|He']%is_empty_true; [by rewrite annotated_columns in He'|].
      unfold groupby. by rewrite He'.
    + intros _. apply annotated_columns.
Qed.

Lemma no_missing_keys (cols keys : list string) :
  filter (λ key, key ∉ cols) keys = [] → Forall (λ c, c ∈ cols) keys.
Proof.
  intros Hnil. apply Forall_forall. intros c Hc.
  destruct (decide (c ∈ cols)) as [|Hn]; [done|].
  assert (c ∈ filter (λ key, key ∉ cols) keys) as Hin by by apply list_elem_of_filter.
  rewrite Hnil in Hin. by apply elem_of_nil in Hin.
Qed.


(** A request is answered either with a table, which then has rows,
    and no message, or with no table, no summary, no columns and, for
    a POST, exactly one message. *)
Theorem table_or_one_message `{Pandas} (run_query : pystr → QueryOutcome)
    (request : Request) (response : Response) :
  index run_query request = Ok response →
  match duplicates_table (page response) with
  | Some table => method request = POST ∧ table ≠ [] ∧ flashed response = []
  | None =>
      difference_summary (page response) = []
      ∧ shown_columns (page response) = []
      ∧ (method request = POST → ∃ message category,
           flashed response = [(message, category)])
      ∧ (method request = GET → flashed response = [])
  end.
Proof.
  unfold index. destruct (method request).
  { intros [= <-]. simpl. split_and!; done. }
  destruct (build_query_from_input _) as [sql|e] eqn:Hb.
  2: { apply build_query_raises_ValueError in Hb as [message ->].
       intros [= <-]. simpl. split_and!; first [done|eauto]. }
  destruct (run_query sql) as [df|exc]; [|intros [= <-]; simpl; split_and!; first [done|eauto]].
  case_bool_decide as Hk; [intros [= <-]; simpl; split_and!; first [done|eauto]|].
  case_bool_decide as Hm; [|intros [= <-]; simpl; split_and!; first [done|eauto]].
  destruct (compute_duplicates_returns df (form_selected_keys request) Hk
              (no_missing_keys _ _ Hm)) as (out & summary & -> & Hs & _).
  simpl. intros [= <-]. simpl. destruct (is_empty out) eqn:He; simpl.
  - split_and!; first [done|eauto].
  - split_and!; try done. apply is_empty_false in He as [_ He].
    unfold to_dict. by destruct (rows out).
Qed.

Lemma table_or_one_message_witness :
  let response :=
    match index scenario_db scenario_request with
    | Ok response => response
    | Raise _ => {| flashed := []; page := no_results [] [] [] |}
    end in
  index scenario_db scenario_request = Ok response
  ∧ match duplicates_table (page response) with
    | Some table => method scenario_request = POST ∧ table ≠ [] ∧ flashed response = []
    | None =>
        difference_summary (page response) = []
        ∧ shown_columns (page response) = []
        ∧ (method scenario_request = POST → ∃ message category,
             flashed response = [(message, category)])
        ∧ (method scenario_request = GET → flashed response = [])
    end.
Proof.
  intros response.
  assert (index scenario_db scenario_request = Ok response) as Hi
    by (vm_compute; reflexivity).
  split; [exact Hi|]. exact (table_or_one_message _ _ _ Hi).
Defined.

(** A blank query is refused before the database is asked: the answer
    is the message of [build_query_from_input] and a page without
    columns, the same for every database. *)
Theorem blank_query_is_not_run `{Pandas} (run_query : pystr → QueryOutcome)
    (request : Request) :
  method request = POST →
  Forall (λ c, isspace c = true) (default [] (form_query request)) →
  index run_query request
  = Ok {| flashed := [("Informe uma tabela ou uma consulta SQL válida.", "danger")];
          page := no_results (default [] (form_query request))
                    (form_selected_keys request) [] |}.
Proof.
  intros Hm Hblank. unfold index, build_query_from_input. rewrite Hm.
  apply strip_nil_iff in Hblank. by rewrite bool_decide_true.
Qed.

Lemma blank_query_is_not_run_witness :
  method blank_request = POST
  ∧ Forall (λ c, isspace c = true) (default [] (form_query blank_request))
  ∧ index scenario_db blank_request
    = Ok {| flashed := [("Informe uma tabela ou uma consulta SQL válida.", "danger")];
            page := no_results (default [] (form_query blank_request))
                      (form_selected_keys blank_request) [] |}.
Proof.
  assert (method blank_request = POST) as Hm by reflexivity.
  assert (Forall (λ c, isspace c = true) (default [] (form_query blank_request)))
    as Hblank by by_compute.
  do 2 (split; [assumption|]).
  exact (blank_query_is_not_run scenario_db blank_request Hm Hblank).
Defined.

(** When a table is shown, the keys sent with the request are not
    empty and are columns of the query result; the columns shown are
    [ordem] followed by the columns of the query result, [ordem]
    itself left out there; and every record of the table lists exactly
    the columns shown, in that order. *)
Theorem shown_table_shape `{Pandas} (run_query : pystr → QueryOutcome)
    (request : Request) (response : Response) (table : list (list (string * Scalar))) :
  index run_query request = Ok response →
  duplicates_table (page response) = Some table →
  selected_keys (page response) = form_selected_keys request
  ∧ form_selected_keys request ≠ []
  ∧ Forall (λ c, c ∈ available_columns (page response)) (form_selected_keys request)
  ∧ shown_columns (page response)
    = "ordem" :: filter (λ col, col ≠ "ordem") (available_columns (page response))
  ∧ Forall (λ record, record.*1 = shown_columns (page response)) table.
Proof.
  unfold index. destruct (method request); [by intros [= <-]|].
  destruct (build_query_from_input _) as [sql|e] eqn:Hb.
  2: { apply build_query_raises_ValueError in Hb as [message ->]. by intros [= <-]. }
  destruct (run_query sql) as [df|exc]; [|by intros [= <-]].
  case_bool_decide as Hk; [by intros [= <-]|].
  case_bool_decide as Hm; [|by intros [= <-]].
  destruct (compute_duplicates_returns df (form_selected_keys request) Hk
              (no_missing_keys _ _ Hm)) as (out & summary & -> & _ & Hcols).
  simpl. intros [= <-]. simpl. destruct (is_empty out) eqn:He; [done|].
  intros [= <-]. specialize (Hcols eq_refl).
  assert (∀ ir : nat * Row, ((λ col, (col, get ir.2 col)) <$> columns out).*1 = columns out)
    as Hfst.
  { intros ir. rewrite <-list_fmap_compose. apply list_fmap_id. }
  assert (match to_dict out with first :: _ => first.*1 | [] => [] end = columns out)
    as Hshown.
  { apply is_empty_false in He as [_ He]. unfold to_dict.
    destruct (rows out) as [|ir rs]; [done|]. apply Hfst. }
  split_and!; try done.
  - by apply no_missing_keys.
  - by rewrite Hshown.
  - rewrite Hshown. unfold to_dict. apply Forall_fmap, Forall_forall.
    intros ir _. apply Hfst.
Qed.

Lemma shown_table_shape_witness :
  let response :=
    match index scenario_db scenario_request with
    | Ok response => response
    | Raise _ => {| flashed := []; page := no_results [] [] [] |}
    end in
  let table := default [] (duplicates_table (page response)) in
  index scenario_db scenario_request = Ok response
  ∧ duplicates_table (page response) = Some table
  ∧ selected_keys (page response) = form_selected_keys scenario_request
  ∧ form_selected_keys scenario_request ≠ []
  ∧ Forall (λ c, c ∈ available_columns (page response))
      (form_selected_keys scenario_request)
  ∧ shown_columns (page response)
    = "ordem" :: filter (λ col, col ≠ "ordem") (available_columns (page response))
  ∧ Forall (λ record, record.*1 = shown_columns (page response)) table.
Proof.
  intros response table.
  assert (index scenario_db scenario_request = Ok response) as Hi
    by (vm_compute; reflexivity).
  assert (duplicates_table (page response) = Some table) as Ht
    by (vm_compute; reflexivity).
  do 2 (split; [assumption|]).
  exact (shown_table_shape _ _ _ _ Hi Ht).
Defined.

(** With a query that runs, keys that cannot be used are reported and
    nothing is computed: without keys the page asks for one, with keys
    that are no columns of the result it names them, in the order and
    as often as they were sent; either way the page offers the columns
    of the result and shows no table. *)
Theorem unusable_keys_are_reported `{Pandas} (run_query : pystr → QueryOutcome)
    (request : Request) (sql : pystr) (df : DataFrame) :
  method request = POST →
  build_query_from_input (default [] (form_query request)) = Ok sql →
  run_query sql = Fetched df →
  let missing := filter (λ key, key ∉ columns df) (form_selected_keys request) in
  form_selected_keys request = [] ∨ missing ≠ [] →
  ∃ message category,
    index run_query request
    = Ok {| flashed := [(message, category)];
            page := no_results (default [] (form_query request))
                      (form_selected_keys request) (columns df) |}
    ∧ (form_selected_keys request ≠ [] →
       message = "Colunas não encontradas no resultado: " +:+ join ", " missing
       ∧ category = "danger").
Proof.
  intros Hm Hb Hq missing Hbad. unfold index. rewrite Hm, Hb, Hq. cbv zeta.
  destruct (decide (form_selected_keys request = [])) as [Hk|Hk].
  { rewrite bool_decide_true by done. eexists _, _. split; [done|]. by intros ?. }
  rewrite bool_decide_false by done.
  destruct Hbad as [?|Hmiss]; [done|]. unfold missing in *.
  rewrite bool_decide_false by done. eexists _, _. split; [done|]. by intros _.
Qed.

Lemma unusable_keys_are_reported_witness :
  let request := {| method := POST; form_query := Some (lit "flights");
                    form_selected_keys := ["airline"; "gate"] |} in
  let missing := filter (λ key, key ∉ columns scenario) (form_selected_keys request) in
  method request = POST
  ∧ build_query_from_input (default [] (form_query request))
    = Ok (lit "SELECT * FROM flights")
  ∧ scenario_db (lit "SELECT * FROM flights") = Fetched scenario
  ∧ (form_selected_keys request = [] ∨ missing ≠ [])
  ∧ ∃ message category,
      index scenario_db request
      = Ok {| flashed := [(message, category)];
              page := no_results (default [] (form_query request))
                        (form_selected_keys request) (columns scenario) |}
      ∧ (form_selected_keys request ≠ [] →
         message = "Colunas não encontradas no resultado: " +:+ join ", " missing
         ∧ category = "danger").
Proof.
  intros request missing.
  assert (method request = POST) as Hm by reflexivity.
  assert (build_query_from_input (default [] (form_query request))
          = Ok (lit "SELECT * FROM flights")) as Hb by reflexivity.
  assert (scenario_db (lit "SELECT * FROM flights") = Fetched scenario) as Hq
    by reflexivity.
  assert (form_selected_keys request = [] ∨ missing ≠ []) as Hbad
    by (right; by vm_compute).
  do 4 (split; [assumption|]).
  exact (unusable_keys_are_reported scenario_db request _ _ Hm Hb Hq Hbad).
Defined.

(** No record has a NULL in its key. *)
Theorem record_keys_have_no_null `{Pandas} (df : DataFrame) (keys : list string)
    (out : DataFrame) (summary : list DifferenceRecord) (rec : DifferenceRecord)
    (k : list Scalar) :
  compute_duplicates df keys = Ok (out, summary) →
  rec ∈ summary → key rec = KTuple k →
  Forall (λ v, v ≠ SNull) k.
Proof.
  intros Hc Hrec Hkey.
  apply compute_duplicates_inv in Hc
    as [(_ & _ & ->)|(_ & _ & _ & [(_ & _ & ->)|(_ & _ & ->)])];
    [by apply elem_of_nil in Hrec..|].
  apply list_elem_of_fmap in Hrec as (g & -> & Hg).
  apply elem_of_groupby in Hg as (k' & -> & _ & Hnn).
  simpl in Hkey. rewrite as_tuple_yield_key in Hkey. injection Hkey as ->.
  apply Forall_forall. intros v Hv ->.
  assert (has_null k = true) as Hn; [|congruence].
  apply existsb_exists. exists SNull. split; [by apply list_elem_of_In|done].
Qed.

Lemma record_keys_have_no_null_witness :
  compute_duplicates scenario ["airline"]
  = Ok (frame_of (compute_duplicates scenario ["airline"]), [airline_record])
  ∧ airline_record ∈ [airline_record]
  ∧ key airline_record = KTuple [SText "Safra Air"]
  ∧ Forall (λ v, v ≠ SNull) [SText "Safra Air"].
Proof.
  assert (compute_duplicates scenario ["airline"]
          = Ok (frame_of (compute_duplicates scenario ["airline"]), [airline_record]))
    as Hc by (vm_compute; reflexivity).
  assert (airline_record ∈ [airline_record]) as Hrec by by_compute.
  assert (key airline_record = KTuple [SText "Safra Air"]) as Hkey by reflexivity.
  do 3 (split; [assumption|]).
  exact (record_keys_have_no_null _ _ _ _ _ _ Hc Hrec Hkey).
Defined.
